(** * basisga: the GA basis selector of mc2hessian

    A shallow embedding of [src/basisga.py] (function [main] and its helper
    [minintask]) and the properties of its search loop.

    Python floats and numpy float64 values are IEEE 754 binary64 numbers and
    are modelled by Rocq's primitive floats, the integer index arrays by
    lists of [Z] living in an explicit store (numpy arrays are mutable
    objects, [numpy.copy] allocates a new one), the float arrays that the
    loop fills entry by entry by lists written through checked positions.
    Code that is not part of [basisga.py] (the ensemble accessor [LocalPDF],
    [comp_hess], [invcov_sqrtinvcov], the numpy linear algebra and the numpy
    random generator) is taken as an interface, one type class per
    collaborator.  The [print] statements and the log and yaml files are
    left out. *)

From Stdlib Require Import ZArith List Bool Lia Floats String.
From stdpp Require Import base option list sorting.
Import ListNotations.

(* Decimal literals denote the nearest binary64 number, as in Python. *)
Set Warnings "-inexact-float".

Local Open Scope Z_scope.

(** ** Values, exceptions and the arrays of the search loop *)

Abbreviation vector := (list float).
Abbreviation matrix := (list (list float)).

(** [range(n)] of Python, as a list of integers. *)
Definition range (n : Z) : list Z := map Z.of_nat (seq 0 (Z.to_nat n)).

Inductive exn : Type :=
| IndexError
| ValueError
| LinAlgError.

(** The result of running a piece of the program: a value, a Python
    exception, or no answer within the given number of loop turns. *)
Inductive result (A : Type) : Type :=
| Ok (a : A)
| Raise (e : exn)
| Timeout.

Arguments Ok {A} a.
Arguments Raise {A} e.
Arguments Timeout {A}.

#[global] Instance result_bind : MBind result := fun A B k m =>
  match m with
  | Ok a => k a
  | Raise e => Raise e
  | Timeout => Timeout
  end.

#[global] Instance result_ret : MRet result := fun A a => Ok a.

(** Integer arrays are objects: a variable holds a location of the store. *)
Abbreviation loc := nat (only parsing).
Abbreviation store := (list (list Z)).

Module Np.

(** [a[l]] as a value: the array a variable points to. *)
Definition deref (l : loc) (h : store) : result (list Z) :=
  match h !! l with
  | Some a => Ok a
  | None => Raise IndexError
  end.

(** [numpy.copy(a)]: a new array with the contents of [a]. *)
Definition copy (l : loc) (h : store) : result (loc * store) :=
  a ← deref l h;
  Ok (length h, h ++ [a]).

(** [val in a] for an integer array. *)
Definition contains (val : Z) (a : list Z) : bool :=
  existsb (Z.eqb val) a.

(** The position that the index [k] denotes along an axis of length [d]: a
    negative index counts from the end, an index outside the axis raises. *)
Definition index (d k : Z) : result Z :=
  if (0 <=? k) && (k <? d) then Ok k
  else if (- d <=? k) && (k <? 0) then Ok (k + d)
  else Raise IndexError.

(** [a[pos] = val]: a negative position counts from the end, a position
    outside the array raises. *)
Definition setitem {A : Type} (a : list A) (pos : Z) (val : A)
  : result (list A) :=
  let n := Z.of_nat (length a) in
  if (0 <=? pos) && (pos <? n) then Ok (<[Z.to_nat pos := val]> a)
  else if (- n <=? pos) && (pos <? 0) then Ok (<[Z.to_nat (pos + n) := val]> a)
  else Raise IndexError.

(** [m[i, j] = val] on a two-dimensional array. *)
Definition setitem2 {A : Type} (m : list (list A)) (i j : Z) (val : A)
  : result (list (list A)) :=
  i' ← index (Z.of_nat (length m)) i;
  match m !! Z.to_nat i' with
  | Some row =>
      row' ← setitem row j val;
      Ok (<[Z.to_nat i' := row']> m)
  | None => Raise IndexError
  end.

End Np.

(** ** The collaborators of the search loop

    [basisga.py] imports them from [mc2hessian] and numpy; the search loop is
    written against these interfaces. *)

(** The ensemble accessor, [mc2hessian.LocalPDF] together with [XGrid] and
    [Flavors].  [xfxQ], [f0], [std] and [mask] give the entries of its
    arrays at the positions inside their shapes; [rebase] gives the accessor
    after the call and writes to no array of the search loop. *)
Class Accessor := {
  PDF : Type;
  LocalPDF : string -> Z -> float -> float -> PDF;
  fl_n : Z;
  xgrid_n : Z;
  xfxQ : PDF -> Z -> Z -> Z -> float;
  f0 : PDF -> Z -> Z -> float;
  std : PDF -> Z -> Z -> float;
  mask : PDF -> Z -> Z -> bool;
  n_rep : PDF -> Z;
  fin : PDF -> list Z;
  rebase : list Z -> PDF -> PDF;
  pdfcovmat : PDF -> matrix
}.

(** Modelled from the spec: the accessor's per-replica values are an
    [array[N, flavor_count, x_point_count]] and its central value an
    [array[flavor_count, x_point_count]], that is [pdf.xfxQ] has the shape
    [(pdf.n_rep, fl.n, xgrid.n)] and [pdf.f0] the shape [(fl.n, xgrid.n)].
    [xfxQ_at] and [f0_at] are the reads [xfxQ[r, fi, ix]] and [f0[fi, ix]]
    as numpy does them on arrays of these shapes: each index is checked
    against its axis. *)
Definition xfxQ_at {acc : Accessor} (p : PDF) (r fi ix : Z) : result float :=
  r' ← Np.index (n_rep p) r;
  fi' ← Np.index fl_n fi;
  ix' ← Np.index xgrid_n ix;
  Ok (xfxQ p r' fi' ix').

Definition f0_at {acc : Accessor} (p : PDF) (fi ix : Z) : result float :=
  fi' ← Np.index fl_n fi;
  ix' ← Np.index xgrid_n ix;
  Ok (f0 p fi' ix').

(** The numpy linear algebra and [mc2hessian.invcov_sqrtinvcov].  Every
    call made inside the loop may raise: [dot], [cov] and [allclose] refuse
    operands whose shapes do not fit, [inv] a singular matrix, [lstsq] and
    [eigh] an iteration that does not converge.  [power x y] is [x ** y] on
    float64 numbers, which numpy computes with the [pow] of the C
    library. *)
Class Linalg := {
  invcov_sqrtinvcov : matrix -> matrix * matrix;
  dot : matrix -> matrix -> result matrix;
  dotv : matrix -> vector -> result vector;
  lstsq : matrix -> vector -> result vector;
  cov : matrix -> result matrix;
  inv : matrix -> result matrix;
  allclose : matrix -> matrix -> result bool;
  eye : nat -> matrix;
  eigh : matrix -> result (vector * matrix);
  power : float -> float -> float
}.

(** [mc2hessian.comp_hess(nrep, vec, xfxQ, f, x, cv)]. *)
Class Hessian := {
  comp_hess : Z -> matrix -> (Z -> Z -> Z -> float) -> Z -> Z -> float -> float
}.

(** The process-wide generator of [numpy.random]. *)
Class Random := {
  RNG : Type;
  seed : Z -> RNG;
  uniform : RNG -> float * RNG;
  randint : Z -> Z -> RNG -> Z * RNG
}.

(** [numpy.random.randint(lo, hi)] refuses an empty interval. *)
Definition np_randint {rnd : Random} (lo hi : Z) (r : RNG) : result (Z * RNG) :=
  if lo <? hi then Ok (randint lo hi r) else Raise ValueError.

(** [numpy.zeros(shape=...)] refuses a negative dimension. *)
Definition np_zeros_check (shape : list Z) : result unit :=
  if forallb (Z.leb 0) shape then Ok tt else Raise ValueError.

(** [numpy.zeros(shape=(n))] and [numpy.zeros(shape=(m, n))]. *)
Definition np_zeros (n : Z) : result vector :=
  _ ← np_zeros_check [n];
  Ok (replicate (Z.to_nat n) 0%float).

Definition np_zeros2 (m n : Z) : result matrix :=
  _ ← np_zeros_check [m; n];
  Ok (replicate (Z.to_nat m) (replicate (Z.to_nat n) 0%float)).

(** [Parallel(n_jobs)(delayed(f)(i) for i in l)]: joblib gives the results in
    the order of the tasks, whatever the number of workers, and the call
    raises when a task raises (the exception of the first such task, in the
    order of the tasks). *)
Definition Parallel {A B : Type} (n_jobs : Z) (f : A -> result B) (l : list A)
  : result (list B) :=
  mapM f l.

(** A [for] loop over a list whose body may raise. *)
Fixpoint for_each {S : Type} (ts : list Z) (f : Z -> S -> result S) (s : S)
  : result S :=
  match ts with
  | [] => Ok s
  | t :: ts' => s' ← f t s; for_each ts' f s'
  end.

(** ** The candidate generator (lines 73-84) *)

Definition nmut_of (g : float) : Z :=
  if (g <=? 0.3)%float then 1
  else if (0.3 <? g)%float && (g <=? 0.6)%float then 2
  else if (0.6 <? g)%float && (g <=? 0.7)%float then 3
  else 4.

Section Mutation.
Context {rnd : Random}.

(** The rejection loop [while done == False] of line 80; [ifuel] bounds the
    number of draws. *)
Fixpoint draw_val (ifuel : nat) (N : Z) (a : list Z) (r : RNG)
  : result (Z * RNG) :=
  match ifuel with
  | O => Timeout
  | S k =>
      '(val, r') ← np_randint 1 (N + 1) r;
      if negb (Np.contains val a) then Ok (val, r') else draw_val k N a r'
  end.

(** One turn of [for t in range(nmut)], on the array at [tmp]. *)
Definition mutation (ifuel : nat) (N nrep : Z) (tmp : loc) (hr : store * RNG)
  : result (store * RNG) :=
  let '(h, r) := hr in
  a ← Np.deref tmp h;
  '(val, r1) ← draw_val ifuel N a r;
  '(pos, r2) ← np_randint 0 nrep r1;
  a' ← Np.setitem a pos val;
  Ok (<[tmp := a']> h, r2).

Definition mutations (ifuel : nat) (N nrep : Z) (tmp : loc) (nmut : Z)
  (hr : store * RNG) : result (store * RNG) :=
  for_each (range nmut) (fun _ => mutation ifuel N nrep tmp) hr.

End Mutation.

(** ** The Hessian basis and the score (lines 109-120) *)

Section Rescale.
Context {la : Linalg}.

(** [for i in range(len(vec)): vec[i] /= eigenvalues[i]**0.5]: [vec[i]] is
    row [i] of the matrix. *)
Definition rescale_row (eigenvalues : vector) (i : nat) (row : vector)
  : result vector :=
  match eigenvalues !! i with
  | Some e => Ok (map (fun v => (v / power e 0.5)%float) row)
  | None => Raise IndexError
  end.

Fixpoint rescale_from (eigenvalues : vector) (i : nat) (vec : matrix)
  : result matrix :=
  match vec with
  | [] => Ok []
  | row :: rows =>
      row' ← rescale_row eigenvalues i row;
      rows' ← rescale_from eigenvalues (S i) rows;
      Ok (row' :: rows')
  end.

Definition rescale (eigenvalues : vector) (vec : matrix) : result matrix :=
  rescale_from eigenvalues 0 vec.

End Rescale.

Section Score.
Context {acc : Accessor} {hs : Hessian}.
Variables (nrep : Z) (prior_cv prior_std : Z -> Z -> float).
Variables (vec : matrix) (p : PDF).

(** The body of the two loops of "Step 5", at grid point [(f, x)]. *)
Definition erf_point (est : float) (f x : Z) : float :=
  if mask p f x then
    let cv := prior_cv f x in
    let t0 := prior_std f x in
    let t1 := comp_hess nrep vec (xfxQ p) f x cv in
    if negb (t0 =? 0)%float then (est + abs ((t1 - t0) / t0))%float else est
  else est.

Definition erf : float :=
  fold_left
    (fun est f => fold_left (fun est x => erf_point est f x) (range xgrid_n) est)
    (range fl_n) 0%float.

End Score.

(** ** The search loop (lines 52-128) *)

Section Search.
Context {acc : Accessor} {la : Linalg} {hs : Hessian} {rnd : Random}.

Record state := State {
  nite : Z;
  berf : float;
  index : loc;
  indextmp : loc;
  heap : store;
  pdf : PDF;
  rng : RNG
}.

(** What an evaluation of the candidate gives: the [continue] of line 106,
    or the score [est]. *)
Inductive outcome : Type :=
| Degenerate
| Scored (est : float).

Variables (nrep nitemax num_cores : Z) (sqrtinvcov : matrix).
Variables (prior_cv prior_std : Z -> Z -> float).

Let nf := fl_n.
Let nx := xgrid_n.

(** [minintask(i, A, nf, nx, n, xfxQ, f0, sqrtinvcov)], lines 24-30; the
    arrays [xfxQ] and [f0] are given by their reads. *)
Definition minintask (i : Z) (A : matrix) (nf nx n : Z)
  (xfxQ : Z -> Z -> Z -> result float) (f0 : Z -> Z -> result float)
  (sqrtinvcov : matrix) : result vector :=
  b ← np_zeros (nf * nx);
  b ← for_each (range nf) (fun fi b =>
         for_each (range nx) (fun ix b =>
           v ← xfxQ i fi ix;
           c ← f0 fi ix;
           Np.setitem b (nx * fi + ix) (v - c)%float) b) b;
  b ← dotv sqrtinvcov b;
  lstsq A b.

(** Lines 68-85: nothing at iteration 0, otherwise copy the accepted array,
    mutate the copy and rebase the accessor on it. *)
Definition generate (ifuel : nat) (st : state) : result state :=
  if 0 <? nite st then
    '(tmp, h1) ← Np.copy (index st) (heap st);
    let '(g, r1) := uniform (rng st) in
    let nmut := nmut_of g in
    '(h2, r2) ← mutations ifuel (n_rep (pdf st)) nrep tmp nmut (h1, r1);
    a ← Np.deref tmp h2;
    Ok (State (nite st) (berf st) (index st) tmp h2 (rebase a (pdf st)) r2)
  else Ok st.

(** Lines 88-94: the design matrix, row [nx*fi + ix], column [r]. *)
Definition design (p : PDF) : result matrix :=
  A ← np_zeros2 (nf * nx) nrep;
  A ← for_each (range nf) (fun fi A =>
         for_each (range nx) (fun ix A =>
           let ii := nx * fi + ix in
           for_each (range nrep) (fun r A =>
             v ← xfxQ_at p r fi ix;
             c ← f0_at p fi ix;
             Np.setitem2 A ii r (v - c)%float) A) A) A;
  dot sqrtinvcov A.

(** Lines 88-120: fit, validity check, Hessian basis and score. *)
Definition evaluate (p : PDF) : result outcome :=
  A ← design p;
  _ ← np_zeros_check [n_rep p; nrep];
  an ← Parallel num_cores
         (fun i => minintask i A nf nx nrep (xfxQ_at p) (f0_at p) sqrtinvcov)
         (range (n_rep p));
  acov ← cov an;
  ainvcov ← inv acov;
  prod ← dot acov ainvcov;
  close ← allclose prod (eye (length acov));
  if negb close then Ok Degenerate
  else
    '(eigenvalues, vec) ← eigh ainvcov;
    vec ← rescale eigenvalues vec;
    Ok (Scored (erf nrep prior_cv prior_std vec p)).

(** Lines 122-128: the acceptance test and the iteration counter. *)
Definition accept (est : float) (st : state) : result state :=
  st1 ← (if (est <? berf st)%float then
           '(l, h) ← Np.copy (indextmp st) (heap st);
           Ok (State (nite st) est l (indextmp st) h (pdf st) (rng st))
         else Ok st);
  Ok (State (nite st1 + 1) (berf st1) (index st1) (indextmp st1) (heap st1)
        (pdf st1) (rng st1)).

(** One turn of the [while] loop. *)
Definition body (ifuel : nat) (st : state) : result state :=
  st1 ← generate ifuel st;
  o ← evaluate (pdf st1);
  match o with
  | Degenerate => Ok st1
  | Scored est => accept est st1
  end.

(** [while (nite < nitemax)]; [fuel] bounds the number of turns. *)
Fixpoint search_loop (ifuel fuel : nat) (st : state) : result state :=
  match fuel with
  | O => Timeout
  | S k =>
      if nite st <? nitemax then
        st' ← body ifuel st; search_loop ifuel k st'
      else Ok st
  end.

(** The states at the head of the loop during the first [fuel] turns. *)
Fixpoint trace (ifuel fuel : nat) (st : state) : list state :=
  match fuel with
  | O => [st]
  | S k =>
      if nite st <? nitemax then
        match body ifuel st with
        | Ok st' => st :: trace ifuel k st'
        | _ => [st]
        end
      else [st]
  end.

End Search.

(** ** [main] (lines 32-140) *)

Definition DEFAULT_MAXITER : Z := 2000.

(** The result written to the yaml file. *)
Record report := Report {
  Iterations : Z;
  Final_ERF : float;
  report_pdf_name : string;
  report_nrep : Z;
  report_Q : float;
  report_epsilon : float;
  basis : list Z
}.

Section Main.
Context {acc : Accessor} {la : Linalg} {hs : Hessian} {rnd : Random}.

(** [numpy.random.seed(s)] replaces the state of the process-wide generator,
    whatever it was. *)
Definition np_seed (s : Z) (ambient : RNG) : RNG := seed s.

(** The state at the head of the first turn: [index = pdf.fin] is the array
    at location 0, [indextmp = numpy.copy(index)] the one at location 1. *)
Definition initial_state (p : PDF) (ambient : RNG) : state :=
  State 0 1e8%float 0%nat 1%nat [fin p; fin p] p (np_seed 0 ambient).

(** [num_cores] is [multiprocessing.cpu_count()], [ambient] the state of the
    generator when [main] is called. *)
Definition main (pdf_name : string) (nrep : Z) (Q epsilon : float)
  (max_iters : Z) (num_cores : Z) (ambient : RNG) (ifuel fuel : nat)
  : result report :=
  let p := LocalPDF pdf_name nrep Q epsilon in
  let '(invcov, sqrtinvcov) := invcov_sqrtinvcov (pdfcovmat p) in
  let prior_cv := f0 p in
  let prior_std := std p in
  st ← search_loop nrep max_iters num_cores sqrtinvcov prior_cv prior_std
         ifuel fuel (initial_state p ambient);
  a ← Np.deref (index st) (heap st);
  Ok (Report max_iters (berf st) pdf_name nrep Q epsilon (merge_sort Z.le a)).

End Main.

(** ** A small instance of the interfaces

    Two grid points (one flavour, two values of x) and a basis of two
    replicas: the matrices of the loop are 2x2 or have two columns.  The
    instance stands in for numpy and [mc2hessian] in the examples, where the
    loop is run on it; the theorems hold for every instance of the
    interfaces.

    The linear algebra below is written for these sizes and follows the
    numpy functions in what they answer: the least-squares solution of
    minimum norm, the covariance with divisor [N - 1], the inverse by
    elimination with [LinAlgError] on a zero pivot, the eigenvalues in
    ascending order.  Sums run from left to right.  The ensembles of the
    examples hold small integers and powers of two, on which every operation
    of a run is exact, so that the order of the sums and the method of the
    solver do not show in the numbers; the one exception is [blown], whose
    runs overflow whatever the order of the operations. *)

Module Tiny.

Definition of_Z (z : Z) : float := PrimFloat.of_uint63 (Uint63.of_Z z).

Definition fsum (l : vector) : float := fold_left PrimFloat.add l 0%float.

Definition inner (u v : vector) : float := fsum (zip_with PrimFloat.mul u v).

Definition column (j : nat) (m : matrix) : vector :=
  map (fun row => nth j row 0%float) m.

Definition width (m : matrix) : nat :=
  match m with
  | [] => 0
  | row :: _ => length row
  end.

(** [numpy.dot] of two matrices, and of a matrix and a vector: the rows of
    the first operand must have the length of the second. *)
Definition mdot (a b : matrix) : result matrix :=
  if forallb (fun row => (length row =? length b)%nat) a then
    Ok (map (fun row => map (fun j => inner row (column j b)) (seq 0 (width b)))
          a)
  else Raise ValueError.

Definition mdotv (a : matrix) (v : vector) : result vector :=
  if forallb (fun row => (length row =? length v)%nat) a then
    Ok (map (fun row => inner row v) a)
  else Raise ValueError.

(** Least squares with two unknowns, from the normal equations: the
    solution when the two columns are independent, and the solution of
    minimum norm when they are not (a zero column gets the coefficient 0). *)
Definition lstsq2 (a : matrix) (b : vector) : result vector :=
  if (length a =? length b)%nat
     && forallb (fun row => (length row =? 2)%nat) a then
    let u := column 0 a in
    let v := column 1 a in
    let p := inner u u in
    let q := inner u v in
    let s := inner v v in
    let x := inner u b in
    let y := inner v b in
    let det := (p * s - q * q)%float in
    if negb (det =? 0)%float then
      Ok [((s * x - q * y) / det)%float; ((p * y - q * x) / det)%float]
    else if negb (p + s =? 0)%float then
      Ok [(x / (p + s))%float; (y / (p + s))%float]
    else Ok [0%float; 0%float]
  else Raise LinAlgError.

(** [numpy.cov(an, rowvar=0)]: the columns are the variables and the rows
    the observations; every column is centred on its mean and the products
    are divided by [N - 1].  (For a single column numpy squeezes the answer
    to an array without dimensions, which [numpy.linalg.inv] refuses; the
    1x1 list stands for it here and [inv2] refuses it.) *)
Definition cov_np (an : matrix) : result matrix :=
  let n := of_Z (Z.of_nat (length an)) in
  let centred :=
    map (fun j =>
           let c := column j an in
           let m := (fsum c / n)%float in
           map (fun x => (x - m)%float) c)
        (seq 0 (width an)) in
  Ok (map (fun u => map (fun v => (inner u v / (n - 1))%float) centred)
        centred).

(** [numpy.linalg.inv] of a 2x2 matrix: elimination with a choice of the
    pivot in the first column, [LinAlgError] when a pivot is zero, then the
    two columns of the inverse by substitution.  Whatever is not a 2x2
    matrix is refused. *)
Definition inv2 (m : matrix) : result matrix :=
  match m with
  | [[a; b]; [c; d]] =>
      let swap := (abs a <? abs c)%float in
      let '(p, q, s, t) := if swap then (c, d, a, b) else (a, b, c, d) in
      if (p =? 0)%float then Raise LinAlgError
      else
        let l := (s / p)%float in
        let u := (t - l * q)%float in
        if (u =? 0)%float then Raise LinAlgError
        else
          let solve (y1 y2 : float) : float * float :=
            let x2 := ((y2 - l * y1) / u)%float in
            (((y1 - q * x2) / p)%float, x2) in
          let '(x11, x21) := if swap then solve 0%float 1%float
                             else solve 1%float 0%float in
          let '(x12, x22) := if swap then solve 1%float 0%float
                             else solve 0%float 1%float in
          Ok [[x11; x12]; [x21; x22]]
  | _ => Raise LinAlgError
  end.

(** [numpy.allclose] with its default tolerances, for two operands of the
    same shape, the second with finite entries. *)
Definition close (x y : float) : bool :=
  (abs (x - y) <=? 1e-8 + 1e-5 * abs y)%float.

Definition allclose_m (a b : matrix) : result bool :=
  if (length a =? length b)%nat
     && forallb (fun rs => (length (fst rs) =? length (snd rs))%nat)
          (combine a b) then
    Ok (forallb (fun rs => forallb (fun xy => close (fst xy) (snd xy))
                             (combine (fst rs) (snd rs)))
          (combine a b))
  else Raise ValueError.

Definition eye_m (n : nat) : matrix :=
  map (fun i => map (fun j => if (i =? j)%nat then 1%float else 0%float)
                  (seq 0 n)) (seq 0 n).

(** LAPACK's [dlaev2]: the eigenvalues [rt1] (the larger in absolute
    value) and [rt2] of the symmetric matrix [[a, b], [b, c]] and the unit
    eigenvector [(cs1, sn1)] of [rt1], by the closed formulas of the
    routine. *)
Definition dlaev2 (a b c : float) : (float * float) * (float * float) :=
  let sm := (a + c)%float in
  let df := (a - c)%float in
  let adf := abs df in
  let tb := (b + b)%float in
  let ab := abs tb in
  let '(acmx, acmn) := if (abs c <? abs a)%float then (a, c) else (c, a) in
  let rt :=
    if (ab <? adf)%float then
      (adf * sqrt (1 + (ab / adf) * (ab / adf)))%float
    else if (adf <? ab)%float then
      (ab * sqrt (1 + (adf / ab) * (adf / ab)))%float
    else (ab * sqrt 2)%float in
  let '(rt1, rt2, sgn1) :=
    if (sm <? 0)%float then
      let rt1 := (0.5 * (sm - rt))%float in
      (rt1, ((acmx / rt1) * acmn - (b / rt1) * b)%float, false)
    else if (0 <? sm)%float then
      let rt1 := (0.5 * (sm + rt))%float in
      (rt1, ((acmx / rt1) * acmn - (b / rt1) * b)%float, true)
    else ((0.5 * rt)%float, (-0.5 * rt)%float, true) in
  let '(cs, sgn2) :=
    if (0 <=? df)%float then ((df + rt)%float, true)
    else ((df - rt)%float, false) in
  let '(cs1, sn1) :=
    if (ab <? abs cs)%float then
      let ct := (- tb / cs)%float in
      let sn1 := (1 / sqrt (1 + ct * ct))%float in
      ((ct * sn1)%float, sn1)
    else if (ab =? 0)%float then (1%float, 0%float)
    else
      let tn := (- cs / tb)%float in
      let cs1 := (1 / sqrt (1 + tn * tn))%float in
      (cs1, (tn * cs1)%float) in
  if Bool.eqb sgn1 sgn2 then ((rt1, rt2), ((- sn1)%float, cs1))
  else ((rt1, rt2), (cs1, sn1)).

(** [numpy.linalg.eigh] of a 2x2 matrix, as LAPACK's [dsyevd] computes it
    for this size (entries of ordinary size, for which the routine does not
    rescale).  The function reads the lower triangle; a 2x2 matrix is
    already tridiagonal, and [dsteqr] either finds the entry [b] below the
    diagonal negligible, and the eigenvectors are the unit vectors, or
    rotates by the eigenvector of [dlaev2]; the eigenvalues are then put in
    ascending order, the eigenvectors, in the columns, with them.
    Whatever is not a 2x2 matrix is refused. *)
Definition eigh2 (m : matrix) : result (vector * matrix) :=
  match m with
  | [[a; _]; [b; d]] =>
      let eps := 0x1p-53%float in
      let safmin := 0x1p-1022%float in
      let e := abs b in
      let small :=
        if (abs d <? abs a)%float then
          (e * e <=? (eps * eps * abs d) * abs a + safmin)%float
        else (e * e <=? (eps * eps * abs a) * abs d + safmin)%float in
      let '(d1, d2, z11, z12, z21, z22) :=
        if (e =? 0)%float
           || (e <=? (sqrt (abs a) * sqrt (abs d)) * eps)%float
           || small
        then (a, d, 1%float, 0%float, 0%float, 1%float)
        else
          let '((rt1, rt2), (c, s)) := dlaev2 a b d in
          (rt1, rt2, c, (- s)%float, s, c) in
      if (d2 <? d1)%float then Ok ([d2; d1], [[z12; z11]; [z22; z21]])
      else Ok ([d1; d2], [[z11; z12]; [z21; z22]])
  | _ => Raise LinAlgError
  end.

(** [invcov_sqrtinvcov] of a diagonal covariance matrix. *)
Definition whiten_diag (m : matrix) : matrix * matrix :=
  (imap (fun i row =>
           imap (fun j x => if (i =? j)%nat then (1 / x)%float else 0%float) row)
        m,
   imap (fun i row =>
           imap (fun j x => if (i =? j)%nat then (1 / sqrt x)%float else 0%float)
             row)
        m).

(** [x ** 0.5]: the square root, with the answers of [pow] at [-0.0] and at
    minus infinity.  [pow(x, 0.5)] is this number whenever the root is
    exact, as it is for the eigenvalues 0.25, 1 and 4 of the examples;
    elsewhere the C library may differ from it in the last bit.  Other
    exponents are not used. *)
Definition pow_root (x y : float) : float :=
  if (x =? 0)%float then 0%float
  else if (x =? neg_infinity)%float then infinity
  else sqrt x.

#[export] Instance linalg : Linalg := {|
  invcov_sqrtinvcov := whiten_diag;
  dot := mdot;
  dotv := mdotv;
  lstsq := lstsq2;
  cov := cov_np;
  inv := inv2;
  allclose := allclose_m;
  eye := eye_m;
  eigh := eigh2;
  power := pow_root
|}.

(** The symmetric Hessian error of the directions [vec]. *)
Definition hess (nrep : Z) (vec : matrix) (xfx : Z -> Z -> Z -> float)
  (f x : Z) (cv : float) : float :=
  sqrt (fsum (map (fun i =>
    let d := fsum (map (fun j =>
               (nth (Z.to_nat j) (nth (Z.to_nat i) vec []) 0 * (xfx j f x - cv))%float)
               (range nrep)) in
    (d * d)%float) (range nrep))).

#[export] Instance hessian : Hessian := {| comp_hess := hess |}.

(** An ensemble on the two grid points: the values of every replica, the
    central value and standard deviation of the prior, and the replica ids
    in the order of the current view (the basis first). *)
Record ensemble := Ensemble {
  vals : list (list float);
  center : list float;
  sigma : list float;
  order : list Z
}.

Definition at_point (l : list float) (x : Z) : float :=
  nth (Z.to_nat x) l 0%float.

Definition replica (e : ensemble) (r x : Z) : float :=
  at_point (nth (Z.to_nat (nth (Z.to_nat r) (order e) 0 - 1)) (vals e) []) x.

Definition rebase1 (a : list Z) (e : ensemble) : ensemble :=
  Ensemble (vals e) (center e) (sigma e)
    (a ++ List.filter (fun i => negb (Np.contains i a)) (order e)).

(** The accessor of an ensemble, for a basis of two replicas: the initial
    set is made of the first two replicas of the view. *)
#[export] Instance accessor (e : ensemble) : Accessor := {|
  PDF := ensemble;
  LocalPDF := fun _ _ _ _ => e;
  fl_n := 1;
  xgrid_n := 2;
  xfxQ := fun p r _ x => replica p r x;
  f0 := fun p _ x => at_point (center p) x;
  std := fun p _ x => at_point (sigma p) x;
  mask := fun _ _ _ => true;
  n_rep := fun p => Z.of_nat (length (vals p));
  fin := fun p => firstn 2 (order p);
  rebase := rebase1;
  pdfcovmat := fun _ => eye_m 2
|}.

(** The scripted generator: each call consumes one raw draw. *)
Definition raw (r : list Z) : Z * list Z :=
  match r with
  | [] => (0, [])
  | x :: t => (x, t)
  end.

#[export] Instance random (script : Z -> list Z) : Random := {|
  RNG := list Z;
  seed := script;
  uniform := fun r => ((of_Z (fst (raw r) mod 1000) / 1000)%float, snd (raw r));
  randint := fun lo hi r => (lo + fst (raw r) mod (hi - lo), snd (raw r))
|}.

(** Nine replicas around the central value [(0, 0)].  Replicas 1 and 2 are
    the unit deviations [(1, 0)] and [(0, 1)], so that the coefficients of a
    replica on the initial basis are its two values; over the ensemble the
    first value has mean 0 and variance 32 / 8 = 4, the second mean 0 and
    variance 8 / 8 = 1, and their covariance is 0. *)
Definition nine : list (list float) :=
  [[1; 0]; [0; 1]; [-2; 0]; [-2; -2]; [-2; 0]; [-1; 1]; [0; 1]; [3; -1];
   [3; 0]]%float.

Definition ids : list Z := [1; 2; 3; 4; 5; 6; 7; 8; 9].

(** The ensemble with three priors: a standard deviation of 1 at both
    points, one of [2^-30] at both points, and one of 0 at both points. *)
Definition good : ensemble := Ensemble nine [0; 0]%float [1; 1]%float ids.
Definition wide : ensemble :=
  Ensemble nine [0; 0]%float [0x1p-30; 0x1p-30]%float ids.
Definition still : ensemble := Ensemble nine [0; 0]%float [0; 0]%float ids.

(** The ensemble with its last replica moved to [(1e160, 1e160)]: the
    squares of its coefficients are beyond the largest float, the
    coefficient covariance has infinite entries and its inverse entries that
    are not numbers, without a zero pivot. *)
Definition blown : ensemble :=
  Ensemble
    [[1; 0]; [0; 1]; [-2; 0]; [-2; -2]; [-2; 0]; [-1; 1]; [0; 1]; [3; -1];
     [1e160; 1e160]]%float
    [0; 0]%float [1; 1]%float ids.

(** An ensemble of two replicas. *)
Definition pair : ensemble :=
  Ensemble [[1; 0]; [0; 1]]%float [0; 0]%float [1; 1]%float [1; 2].

End Tiny.

(** ** Notions used in the statements *)

(** Both array variables point into the store. *)
Definition wf {acc : Accessor} {rnd : Random} (st : state) : Prop :=
  (index st < length (heap st))%nat /\ (indextmp st < length (heap st))%nat.

(** [s'] is not above [s] in best score. *)
Definition not_worse {acc : Accessor} {rnd : Random} (s s' : state) : Prop :=
  (berf s' <=? berf s)%float = true.

(** What the mutation loop keeps true of the array at [tmp]. *)
Definition distinct_in_range (n : nat) (N : Z) (a : list Z) : Prop :=
  length a = n /\ NoDup a /\ Forall (fun v => 1 <= v <= N) a.

(** A step that may raise, taken [k] times in a row. *)
Fixpoint repeated {S : Type} (k : nat) (f : S -> result S) (s : S)
  : result S :=
  match k with
  | O => Ok s
  | S k' => s' ← f s; repeated k' f s'
  end.

(** The number of positions at which two arrays differ. *)
Definition hamming (a b : list Z) : nat :=
  length (List.filter (fun xy => negb (fst xy =? snd xy)) (combine a b)).

Section GenerateNotions.
Context {acc : Accessor} {rnd : Random}.

(** The candidate generator at an iteration [>= 1], with [k] mutations: a
    copy of the accepted array, [k] mutations of the copy one after the
    other, from the generator as the uniform draw left it, and the accessor
    rebased on the result. *)
Definition generate_with (k : nat) (nrep : Z) (ifuel : nat) (st : state)
  : result state :=
  '(tmp, h1) ← Np.copy (index st) (heap st);
  '(h2, r2) ← repeated k (mutation ifuel (n_rep (pdf st)) nrep tmp)
                (h1, snd (uniform (rng st)));
  a ← Np.deref tmp h2;
  Ok (State (nite st) (berf st) (index st) tmp h2 (rebase a (pdf st)) r2).

End GenerateNotions.

Section ScoreNotions.
Context {acc : Accessor}.
Variables (nrep : Z) (prior_cv prior_std : Z -> Z -> float).
Variable p : PDF.

(** The grid points in the order of the two loops. *)
Definition grid : list (Z * Z) :=
  flat_map (fun f => map (fun x => (f, x)) (range xgrid_n)) (range fl_n).

(** The points that count: valid by the mask, with a nonzero prior
    standard deviation. *)
Definition counted (fx : Z * Z) : bool :=
  mask p (fst fx) (snd fx) && negb (prior_std (fst fx) (snd fx) =? 0)%float.

(** The relative deviation of the estimate at a point. *)
Definition deviation {hs : Hessian} (vec : matrix) (fx : Z * Z) : float :=
  let t0 := prior_std (fst fx) (snd fx) in
  let t1 := comp_hess nrep vec (xfxQ p) (fst fx) (snd fx)
              (prior_cv (fst fx) (snd fx)) in
  abs ((t1 - t0) / t0).

End ScoreNotions.

(** The rescaling that divides column [j] by the square root of eigenvalue
    [j]: every eigenvector [vec[:, j]] of [numpy.linalg.eigh] by its own
    eigenvalue. *)
Definition rescale_columns {la : Linalg} (eigenvalues : vector) (vec : matrix)
  : matrix :=
  map (fun row =>
         zip_with (fun v e => (v / power e 0.5)%float) row eigenvalues)
      vec.

(** The eigensystem of [[2.5, 1.5], [1.5, 2.5]]: eigenvalues 1 and 4, the
    eigenvectors in the columns. *)
Definition eigenvalues_2 : vector := [1; 4]%float.
Definition vec_2 : matrix :=
  [[-0.7071067811865475; 0.7071067811865475];
   [0.7071067811865475; 0.7071067811865475]]%float.

(** ** Notions used for the loops that fill an array

    The state of the array in the middle of the loops of lines 26-28 and
    89-93, when the cells before [(fi, ix)], and before [(fi, ix, r)], in
    the order of the loops hold their values and the shape is the one
    [numpy.zeros] gave. *)

Definition filled_vector (g : Z -> Z -> float) (len : nat) (nx : Z)
  (fi ix : Z) (b : vector) : Prop :=
  length b = len /\
  forall fi' ix', 0 <= fi' -> 0 <= ix' < nx ->
    fi' < fi \/ (fi' = fi /\ ix' < ix) ->
    b !! Z.to_nat (nx * fi' + ix') = Some (g fi' ix').

Definition filled_matrix (g : Z -> Z -> Z -> float) (rows cols : nat)
  (nx nrep : Z) (fi ix r : Z) (A : matrix) : Prop :=
  length A = rows /\
  Forall (fun row => length row = cols) A /\
  forall fi' ix' r', 0 <= fi' -> 0 <= ix' < nx -> 0 <= r' < nrep ->
    fi' < fi \/ (fi' = fi /\ (ix' < ix \/ (ix' = ix /\ r' < r))) ->
    exists row, A !! Z.to_nat (nx * fi' + ix') = Some row /\
                row !! Z.to_nat r' = Some (g fi' ix' r').

(** ** Runs on the small instance *)

Definition no_script : Z -> list Z := fun _ => [].

(** The whitening matrix of the small instance: the identity. *)
Definition eye2 : matrix := [[1; 0]; [0; 1]]%float.

(** The prior of a small ensemble [e], as [main] reads it. *)
Abbreviation tiny_cv e := (f0 (Accessor := Tiny.accessor e) e).
Abbreviation tiny_std e := (std (Accessor := Tiny.accessor e) e).

(** The loop on a small ensemble [e], with the arguments [main] gives it for
    a basis of two replicas and four cores. *)
Abbreviation tiny_evaluate e :=
  (evaluate (acc := Tiny.accessor e) (la := Tiny.linalg) (hs := Tiny.hessian)
     2 4 eye2 (tiny_cv e) (tiny_std e)).
Abbreviation tiny_body e :=
  (body (acc := Tiny.accessor e) (la := Tiny.linalg) (hs := Tiny.hessian)
     (rnd := Tiny.random no_script)
     2 4 eye2 (tiny_cv e) (tiny_std e)).
Abbreviation tiny_loop e nitemax :=
  (search_loop (acc := Tiny.accessor e) (la := Tiny.linalg)
     (hs := Tiny.hessian) (rnd := Tiny.random no_script)
     2 nitemax 4 eye2 (tiny_cv e) (tiny_std e)).
Abbreviation tiny_main e max_iters :=
  (main (acc := Tiny.accessor e) (la := Tiny.linalg) (hs := Tiny.hessian)
     (rnd := Tiny.random no_script) "tiny" 2 1%float 0%float max_iters 4 []).
Abbreviation tiny_state e :=
  (State (acc := Tiny.accessor e) (rnd := Tiny.random no_script)).
Abbreviation tiny_start e :=
  (initial_state (acc := Tiny.accessor e) (rnd := Tiny.random no_script) e []).

(** The state in which the first turn on [Tiny.good] ends: the initial set
    is scored 1 and accepted, a copy of it is the accepted array. *)
Definition good_first :=
  tiny_state Tiny.good 1 1%float 2%nat 1%nat [[1; 2]; [1; 2]; [1; 2]]
    Tiny.good [].

(** The view of an ensemble once rebased on replicas 3 and 2. *)
Definition rebased (e : Tiny.ensemble) : Tiny.ensemble :=
  Tiny.Ensemble (Tiny.vals e) (Tiny.center e) (Tiny.sigma e)
    [3; 2; 1; 4; 5; 6; 7; 8; 9].

(** A state of the loop on an ensemble [e] of nine replicas at iteration 1:
    replicas 1 and 2 are the accepted basis, and the script makes the
    generator draw 0.1, hence one mutation, which puts replica 3 at
    position 0. *)
Definition mid (e : Tiny.ensemble) :=
  tiny_state e 1 1%float 0%nat 1%nat [[1; 2]; [1; 2]] e [100; 2; 0].

(** The state the generator leaves from [mid e]. *)
Definition mid_next (e : Tiny.ensemble) :=
  tiny_state e 1 1%float 0%nat 2%nat [[1; 2]; [1; 2]; [3; 2]] (rebased e) [].

(** States at iteration 1 whose next uniform draw is [x / 1000]. *)
Definition drawing (x : Z) :=
  tiny_state Tiny.good 1 0.5%float 0%nat 1%nat [[1; 2]; [1; 2]] Tiny.good
    [x; 2; 0; 3; 1; 4; 0; 5; 1].

(** A Hessian projection that answers 0 everywhere. *)
Definition null_hessian : Hessian :=
  {| comp_hess := fun _ _ _ _ _ _ => 0%float |}.

(** ** Notions used in the further properties *)

(** [x != x] of Python: the float is not a number. *)
Definition is_nan (x : float) : bool := negb (x =? x)%float.

(** Every replica id of [1, N] occurs in the array. *)
Definition covers (N : Z) (a : list Z) : Prop :=
  forall v, 1 <= v <= N -> v ∈ a.

(** The accessor counts [N] replicas and both arrays of the state hold [n]
    distinct ids of [1, N]. *)
Definition arrays_distinct {acc : Accessor} {rnd : Random} (n : nat) (N : Z)
  (st : state) : Prop :=
  n_rep (pdf st) = N /\
  (exists a, heap st !! index st = Some a /\ distinct_in_range n N a) /\
  (exists b, heap st !! indextmp st = Some b /\ distinct_in_range n N b).


(** A script for one turn of the generator on nine replicas: the uniform
    draw 0.1, then replica 3 at position 0. *)
Definition one_swap : Z -> list Z := fun _ => [100; 2; 0].

(** The loop and [main] on [Tiny.good] with that script. *)
Abbreviation swap_loop nitemax :=
  (search_loop (acc := Tiny.accessor Tiny.good) (la := Tiny.linalg)
     (hs := Tiny.hessian) (rnd := Tiny.random one_swap)
     2 nitemax 4 eye2 (tiny_cv Tiny.good) (tiny_std Tiny.good)).
Abbreviation swap_trace nitemax :=
  (trace (acc := Tiny.accessor Tiny.good) (la := Tiny.linalg)
     (hs := Tiny.hessian) (rnd := Tiny.random one_swap)
     2 nitemax 4 eye2 (tiny_cv Tiny.good) (tiny_std Tiny.good)).
Abbreviation swap_main max_iters :=
  (main (acc := Tiny.accessor Tiny.good) (la := Tiny.linalg)
     (hs := Tiny.hessian) (rnd := Tiny.random one_swap)
     "tiny" 2 1%float 0%float max_iters 4 []).
Abbreviation swap_start :=
  (initial_state (acc := Tiny.accessor Tiny.good)
     (rnd := Tiny.random one_swap) Tiny.good []).


(** The report of that run. *)
Definition swap_report : report :=
  Report 2 1%float "tiny" 2 1%float 0%float [1; 2].

(** A state at iteration 1 whose accepted array holds both replicas of
    [Tiny.pair]. *)
Definition full_state :=
  tiny_state Tiny.pair 1 0.5%float 0%nat 1%nat [[1; 2]; [1; 2]]
    Tiny.pair [100; 5].

(** * Properties *)

(** ** Order facts on binary64 numbers

    The comparisons of [PrimFloat] are specified by [SFcompare] on
    [spec_float]; the facts below are the ones the acceptance test and the
    mutation thresholds need. *)

Module FloatOrder.

Ltac cmp_cases :=
  repeat match goal with
  | |- context [Z.compare ?a ?b] => destruct (Z.compare_spec a b)
  | |- context [Pos.compare_cont Eq ?a ?b] =>
      change (Pos.compare_cont Eq a b) with (Pos.compare a b);
      destruct (Pos.compare_spec a b)
  end.

Ltac sf_crush :=
  cbn -[Z.compare Pos.compare_cont]; cmp_cases; cbn; intros;
  try discriminate; try reflexivity; try lia.

Lemma SFltb_SFleb (x y : spec_float) : SFltb x y = true -> SFleb x y = true.
Proof.
  unfold SFltb, SFleb. destruct (SFcompare x y) as [[]|]; auto; discriminate.
Qed.

Lemma SFltb_not_SFleb (x y : spec_float) : SFltb x y = true -> SFleb y x = false.
Proof.
  unfold SFltb, SFleb.
  destruct x as [[]|[]| |[] m1 e1], y as [[]|[]| |[] m2 e2]; sf_crush.
Qed.

Lemma SFltb_refl_l (x y : spec_float) : SFltb x y = true -> SFleb x x = true.
Proof.
  unfold SFltb, SFleb.
  destruct x as [[]|[]| |[] m1 e1], y as [[]|[]| |[] m2 e2]; sf_crush.
Qed.

Lemma SFltb_SFleb_trans (x y z : spec_float) :
  SFltb x y = true -> SFleb y z = true -> SFltb x z = true.
Proof.
  unfold SFltb, SFleb.
  destruct x as [[]|[]| |[] m1 e1], y as [[]|[]| |[] m2 e2],
           z as [[]|[]| |[] m3 e3]; sf_crush.
Qed.

Lemma SFleb_trans (x y z : spec_float) :
  SFleb x y = true -> SFleb y z = true -> SFleb x z = true.
Proof.
  unfold SFleb.
  destruct x as [[]|[]| |[] m1 e1], y as [[]|[]| |[] m2 e2],
           z as [[]|[]| |[] m3 e3]; sf_crush.
Qed.

Lemma SFltb_false_SFleb (x y : spec_float) :
  SFltb x y = false -> SFleb x x = true -> SFleb y y = true ->
  SFleb y x = true.
Proof.
  unfold SFltb, SFleb.
  destruct x as [[]|[]| |[] m1 e1], y as [[]|[]| |[] m2 e2]; sf_crush.
Qed.

Lemma ltb_leb (x y : float) :
  PrimFloat.ltb x y = true -> PrimFloat.leb x y = true.
Proof. rewrite ltb_spec, leb_spec. apply SFltb_SFleb. Qed.

Lemma ltb_not_leb (x y : float) :
  PrimFloat.ltb x y = true -> PrimFloat.leb y x = false.
Proof. rewrite ltb_spec, leb_spec. apply SFltb_not_SFleb. Qed.

Lemma ltb_leb_refl (x y : float) :
  PrimFloat.ltb x y = true -> PrimFloat.leb x x = true.
Proof. rewrite ltb_spec, leb_spec. apply SFltb_refl_l. Qed.

Lemma ltb_leb_trans (x y z : float) :
  PrimFloat.ltb x y = true -> PrimFloat.leb y z = true ->
  PrimFloat.ltb x z = true.
Proof. rewrite !ltb_spec, leb_spec. apply SFltb_SFleb_trans. Qed.

(** A number above [c] is not below or equal to any [d] that [c] is not
    below. *)
Lemma above_not_leb (c d g : float) :
  PrimFloat.ltb c g = true -> PrimFloat.ltb c d = false ->
  PrimFloat.leb g d = false.
Proof.
  intros Hg Hd. destruct (PrimFloat.leb g d) eqn:E; [|reflexivity].
  rewrite (ltb_leb_trans c g d Hg E) in Hd. discriminate.
Qed.

(** On numbers the order is total. *)
Lemma ltb_false_leb (x y : float) :
  PrimFloat.ltb x y = false -> PrimFloat.leb x x = true ->
  PrimFloat.leb y y = true -> PrimFloat.leb y x = true.
Proof. rewrite ltb_spec, !leb_spec. apply SFltb_false_SFleb. Qed.

Lemma leb_trans (x y z : float) :
  PrimFloat.leb x y = true -> PrimFloat.leb y z = true ->
  PrimFloat.leb x z = true.
Proof. rewrite !leb_spec. apply SFleb_trans. Qed.

End FloatOrder.


(** Inversion of a successful sequence of two steps. *)
Lemma bind_Ok {A B : Type} (m : result A) (k : A -> result B) (b : B) :
  (m ≫= k) = Ok b -> exists a, m = Ok a /\ k a = Ok b.
Proof. destruct m as [a| |]; simpl; try discriminate. eauto. Qed.

Tactic Notation "inv_bind" hyp(H) :=
  let a := fresh "a" in
  let Ha := fresh "Ha" in
  apply bind_Ok in H; destruct H as (a & Ha & H).

Tactic Notation "inv_bind" hyp(H) "as" simple_intropattern(p) ident(Hp) :=
  apply bind_Ok in H; destruct H as (p & Hp & H); simpl in H.

Lemma length_range (n : Z) : length (range n) = Z.to_nat n.
Proof. unfold range. now rewrite length_map, length_seq. Qed.

(** A loop whose body does not read the loop variable is its body taken as
    many times as the list has entries. *)
Lemma for_each_repeated {S : Type} (ts : list Z) (f : S -> result S) (s : S) :
  for_each ts (fun _ => f) s = repeated (length ts) f s.
Proof.
  revert s. induction ts as [|t ts IH]; intros s; simpl; [reflexivity|].
  destruct (f s) as [s'| |]; simpl; [apply IH|reflexivity|reflexivity].
Qed.

(** ** The mutation count *)

Section MutationCount.
Context {acc : Accessor} {rnd : Random}.
Variable nrep : Z.

(** At an iteration [>= 1] the generator is asked for one uniform number
    and [nmut_of] of it fixes the number of turns of the mutation loop. *)
Lemma generate_unfold (ifuel : nat) (st : state) :
  0 < nite st ->
  generate nrep ifuel st =
    ('(tmp, h1) ← Np.copy (index st) (heap st);
     '(h2, r2) ← mutations ifuel (n_rep (pdf st)) nrep tmp
                   (nmut_of (fst (uniform (rng st))))
                   (h1, snd (uniform (rng st)));
     a ← Np.deref tmp h2;
     Ok (State (nite st) (berf st) (index st) tmp h2 (rebase a (pdf st)) r2)).
Proof.
  intros Hn. unfold generate.
  replace (0 <? nite st) with true by (symmetry; apply Z.ltb_lt; exact Hn).
  destruct (Np.copy (index st) (heap st)) as [[tmp h1]| |]; simpl; try reflexivity.
  destruct (uniform (rng st)) as [g r1]. reflexivity.
Qed.

(** The mutation loop takes one mutation [nmut] times. *)
Lemma mutations_repeated (ifuel : nat) (N : Z) (tmp : loc) (nmut : Z)
  (hr : store * RNG) :
  mutations ifuel N nrep tmp nmut hr =
  repeated (Z.to_nat nmut) (mutation ifuel N nrep tmp) hr.
Proof. unfold mutations. now rewrite for_each_repeated, length_range. Qed.

(** At an iteration [>= 1] the generator is the copy, [nmut_of g] mutations
    and the rebasing, for the one uniform number [g] it draws. *)
Lemma generate_repeated (ifuel : nat) (st : state) :
  0 < nite st ->
  generate nrep ifuel st =
  generate_with (Z.to_nat (nmut_of (fst (uniform (rng st))))) nrep ifuel st.
Proof.
  intros Hn. rewrite generate_unfold by exact Hn. unfold generate_with.
  destruct (Np.copy (index st) (heap st)) as [[tmp h1]| |]; simpl;
    try reflexivity.
  now rewrite mutations_repeated.
Qed.

End MutationCount.

Lemma nmut_of_table (g : float) :
  ((g <=? 0.3)%float = true -> nmut_of g = 1) /\
  ((0.3 <? g)%float = true -> (g <=? 0.6)%float = true -> nmut_of g = 2) /\
  ((0.6 <? g)%float = true -> (g <=? 0.7)%float = true -> nmut_of g = 3) /\
  ((0.7 <? g)%float = true -> nmut_of g = 4) /\
  ((g <=? 0.7)%float = false -> nmut_of g = 4).
Proof.
  unfold nmut_of. repeat split.
  - intros ->. reflexivity.
  - intros H1 H2.
    rewrite (FloatOrder.ltb_not_leb _ _ H1), H1, H2. reflexivity.
  - intros H1 H2.
    rewrite (FloatOrder.above_not_leb 0.6 0.3 g H1 eq_refl).
    rewrite (FloatOrder.ltb_not_leb _ _ H1), andb_false_r, H1, H2. reflexivity.
  - intros H1.
    rewrite (FloatOrder.above_not_leb 0.7 0.3 g H1 eq_refl).
    rewrite (FloatOrder.above_not_leb 0.7 0.6 g H1 eq_refl).
    rewrite (FloatOrder.ltb_not_leb _ _ H1), !andb_false_r. reflexivity.
  - intros H1.
    assert (H3 : (g <=? 0.3)%float = false).
    { destruct (g <=? 0.3)%float eqn:E; [|reflexivity].
      rewrite (FloatOrder.leb_trans g 0.3 0.7 E eq_refl) in H1. discriminate. }
    assert (H6 : (g <=? 0.6)%float = false).
    { destruct (g <=? 0.6)%float eqn:E; [|reflexivity].
      rewrite (FloatOrder.leb_trans g 0.6 0.7 E eq_refl) in H1. discriminate. }
    rewrite H3, H6, H1, !andb_false_r. reflexivity.
Qed.

(** ** Arrays and the store *)

Lemma deref_Ok (l : loc) (h : store) (a : list Z) :
  Np.deref l h = Ok a <-> h !! l = Some a.
Proof.
  unfold Np.deref. destruct (h !! l); split; intros E; congruence.
Qed.

Lemma copy_Ok (l l' : loc) (h h' : store) :
  Np.copy l h = Ok (l', h') ->
  exists a, h !! l = Some a /\ l' = length h /\ h' = h ++ [a].
Proof.
  unfold Np.copy. intros E. inv_bind E. apply deref_Ok in Ha.
  injection E as <- <-. eauto.
Qed.

Lemma copy_total (l : loc) (h : store) :
  (l < length h)%nat ->
  exists a, h !! l = Some a /\ Np.copy l h = Ok (length h, h ++ [a]).
Proof.
  intros Hl. destruct (lookup_lt_is_Some_2 h l Hl) as [a Ha].
  exists a. split; [exact Ha|]. unfold Np.copy, Np.deref. now rewrite Ha.
Qed.

Lemma contains_false (val : Z) (a : list Z) :
  Np.contains val a = false <-> val ∉ a.
Proof.
  unfold Np.contains. induction a as [|x a IH]; simpl.
  - split; [intros _ E; inversion E|reflexivity].
  - rewrite orb_false_iff, IH, not_elem_of_cons, Z.eqb_neq. tauto.
Qed.

(** A successful [a[pos] = val] overwrites one position of the array. *)
Lemma setitem_Ok (a a' : list Z) (pos val : Z) :
  Np.setitem a pos val = Ok a' ->
  exists i, (i < length a)%nat /\ a' = <[i := val]> a.
Proof.
  unfold Np.setitem. intros E.
  destruct ((0 <=? pos) && (pos <? Z.of_nat (length a))) eqn:E1.
  - apply andb_true_iff in E1 as [?%Z.leb_le ?%Z.ltb_lt].
    injection E as <-. exists (Z.to_nat pos). split; [lia|reflexivity].
  - destruct ((- Z.of_nat (length a) <=? pos) && (pos <? 0)) eqn:E2;
      [|discriminate].
    apply andb_true_iff in E2 as [?%Z.leb_le ?%Z.ltb_lt].
    injection E as <-. exists (Z.to_nat (pos + Z.of_nat (length a))).
    split; [lia|reflexivity].
Qed.

Lemma elem_of_insert_inv (a : list Z) (i : nat) (x y : Z) :
  y ∈ <[i := x]> a -> y = x \/ y ∈ a.
Proof.
  revert i. induction a as [|z a IH]; intros [|i]; simpl; intros E.
  - inversion E.
  - inversion E.
  - apply elem_of_cons in E as [->|E]; [now left|right; now apply elem_of_cons; right].
  - apply elem_of_cons in E as [->|E]; [right; apply elem_of_cons; now left|].
    destruct (IH _ E) as [->|E']; [now left|right; apply elem_of_cons; now right].
Qed.

Lemma NoDup_insert_fresh (a : list Z) (i : nat) (x : Z) :
  NoDup a -> x ∉ a -> NoDup (<[i := x]> a).
Proof.
  revert i. induction a as [|z a IH]; intros [|i] Hd Hx; simpl; try exact Hd.
  - apply NoDup_cons in Hd as [Hz Hd]. apply not_elem_of_cons in Hx as [_ Hx].
    apply NoDup_cons. split; assumption.
  - apply NoDup_cons in Hd as [Hz Hd]. apply not_elem_of_cons in Hx as [Hxz Hx].
    apply NoDup_cons. split; [|apply IH; assumption].
    intros E. destruct (elem_of_insert_inv _ _ _ _ E) as [->|E']; tauto.
Qed.

(** ** The mutation loop *)

Lemma nmut_of_bounds (g : float) : 1 <= nmut_of g <= 4.
Proof.
  unfold nmut_of.
  destruct (g <=? 0.3)%float; [lia|].
  destruct ((0.3 <? g)%float && (g <=? 0.6)%float); [lia|].
  destruct ((0.6 <? g)%float && (g <=? 0.7)%float); lia.
Qed.

Lemma range_cons (k : Z) : 1 <= k -> exists ts, range k = 0 :: ts.
Proof.
  intros Hk. unfold range.
  destruct (Z.to_nat k) as [|m] eqn:E; [lia|].
  simpl. eauto.
Qed.

Lemma hamming_same (a : list Z) : hamming a a = 0%nat.
Proof.
  unfold hamming. induction a as [|x a IH]; simpl; [reflexivity|].
  now rewrite Z.eqb_refl.
Qed.

(** Overwriting one position moves an array by at most one position away
    from any other. *)
Lemma hamming_insert (a b : list Z) (i : nat) (v : Z) :
  (hamming a (<[i := v]> b) <= S (hamming a b))%nat.
Proof.
  unfold hamming. revert b i.
  induction a as [|x a IH]; intros [|y b] [|i]; simpl; try lia.
  - destruct (x =? v), (x =? y); simpl; lia.
  - specialize (IH b i). destruct (x =? y); simpl; lia.
Qed.

Lemma for_each_inv {S : Type} (P : S -> Prop) (ts : list Z)
  (f : Z -> S -> result S) (s s' : S) :
  (forall t x y, P x -> f t x = Ok y -> P y) ->
  P s -> for_each ts f s = Ok s' -> P s'.
Proof.
  intros Hf. revert s. induction ts as [|t ts IH]; simpl; intros s Hs E.
  - injection E as <-. exact Hs.
  - inv_bind E. eapply IH; [|exact E]. eapply Hf; eassumption.
Qed.

Section MutationFacts.
Context {rnd : Random}.

Lemma randint_Ok (lo hi : Z) (r : RNG) (v : Z) (r' : RNG) :
  np_randint lo hi r = Ok (v, r') ->
  lo < hi /\ v = fst (randint lo hi r) /\ r' = snd (randint lo hi r).
Proof.
  unfold np_randint. destruct (lo <? hi) eqn:E; [|discriminate].
  apply Z.ltb_lt in E. intros [= E']. rewrite E'. auto.
Qed.

(** The value that leaves the rejection loop is absent from the array and
    is an answer of [randint(1, N+1)]. *)
Lemma draw_val_Ok (ifuel : nat) (N : Z) (a : list Z) (r r' : RNG) (val : Z) :
  draw_val ifuel N a r = Ok (val, r') ->
  (val ∉ a) /\ 1 < N + 1 /\ exists r0, val = fst (randint 1 (N + 1) r0).
Proof.
  revert r. induction ifuel as [|k IH]; simpl; intros r E; [discriminate|].
  inv_bind E. destruct a0 as [v r1]. simpl in E.
  destruct (Np.contains v a) eqn:Ec; simpl in E.
  - eapply IH, E.
  - injection E as <- <-. apply contains_false in Ec.
    apply randint_Ok in Ha as (Hlt & -> & _). eauto.
Qed.

(** One mutation overwrites one position of the array at [tmp] with a value
    that was absent from it, and touches nothing else. *)
Lemma mutation_Ok (ifuel : nat) (N nrep : Z) (tmp : loc) (h h' : store)
  (r r' : RNG) :
  mutation ifuel N nrep tmp (h, r) = Ok (h', r') ->
  exists a i val,
    h !! tmp = Some a /\ (i < length a)%nat /\ (val ∉ a) /\ 1 < N + 1 /\
    (exists r0, val = fst (randint 1 (N + 1) r0)) /\
    h' = <[tmp := <[i := val]> a]> h.
Proof.
  unfold mutation. intros E.
  inv_bind E. apply deref_Ok in Ha.
  inv_bind E. destruct a0 as [val r1]. simpl in E.
  inv_bind E. destruct a0 as [pos r2]. simpl in E.
  inv_bind E. injection E as <- <-.
  apply draw_val_Ok in Ha0 as (Hv & HN & Hr).
  apply setitem_Ok in Ha2 as (i & Hi & ->).
  exists a, i, val. auto 10.
Qed.

(** The mutation loop keeps the size of the store and every array but the
    one at [tmp]. *)
Lemma mutations_frame (ifuel : nat) (N nrep : Z) (tmp : loc) (nmut : Z)
  (h h' : store) (r r' : RNG) :
  mutations ifuel N nrep tmp nmut (h, r) = Ok (h', r') ->
  length h' = length h /\ forall l, l <> tmp -> h' !! l = h !! l.
Proof.
  unfold mutations. intros E.
  apply (for_each_inv
    (fun hr : store * RNG =>
       length (fst hr) = length h /\
       forall l, l <> tmp -> fst hr !! l = h !! l)) in E; [exact E| |auto].
  intros _ [h1 r1] [h2 r2] [Hlen Hfr] E1. simpl in *.
  apply mutation_Ok in E1 as (a & i & val & _ & _ & _ & _ & _ & ->).
  rewrite length_insert. split; [exact Hlen|].
  intros l Hl. rewrite list_lookup_insert_ne by congruence. auto.
Qed.

(** Every mutation moves the array one position at most away from where
    the loop started, and keeps its length. *)
Lemma mutations_hamming (ifuel : nat) (N nrep : Z) (tmp : loc) (a0 : list Z)
  (ts : list Z) :
  forall (h h' : store) (r r' : RNG) (b : list Z),
    h !! tmp = Some b -> length b = length a0 ->
    for_each ts (fun _ => mutation ifuel N nrep tmp) (h, r) = Ok (h', r') ->
    exists b', h' !! tmp = Some b' /\ length b' = length a0 /\
      (hamming a0 b' <= hamming a0 b + length ts)%nat.
Proof.
  induction ts as [|t ts IH]; simpl; intros h h' r r' b Hb Hlen E.
  - injection E as <- <-. exists b. repeat split; [exact Hb|exact Hlen|lia].
  - inv_bind E as [h1 r1] Em.
    apply mutation_Ok in Em as (b1 & i & val & Hb1 & _ & _ & _ & _ & ->).
    rewrite Hb in Hb1. injection Hb1 as <-.
    destruct (IH _ _ _ _ (<[i := val]> b)
                (list_lookup_insert_eq _ _ _ (lookup_lt_Some _ _ _ Hb))
                ltac:(now rewrite length_insert) E)
      as (b' & Hb' & Hl' & Hh').
    exists b'. repeat split; [exact Hb'|exact Hl'|].
    pose proof (hamming_insert a0 b i val). lia.
Qed.

Hypothesis randint_range : forall lo hi r,
  lo < hi -> lo <= fst (randint lo hi r) < hi.



Lemma mutation_distinct (ifuel : nat) (N nrep : Z) (tmp : loc) (n : nat)
  (h h' : store) (r r' : RNG) :
  (exists a, h !! tmp = Some a /\ distinct_in_range n N a) ->
  mutation ifuel N nrep tmp (h, r) = Ok (h', r') ->
  exists a', h' !! tmp = Some a' /\ distinct_in_range n N a'.
Proof.
  intros (a & Ha & Hlen & Hd & Hr) E.
  apply mutation_Ok in E as (a1 & i & val & Ha1 & Hi & Hv & HN & (r0 & Hval) & ->).
  rewrite Ha in Ha1. injection Ha1 as <-.
  exists (<[i := val]> a). split.
  - apply list_lookup_insert_eq. eapply lookup_lt_Some, Ha.
  - split; [now rewrite length_insert|]. split.
    + now apply NoDup_insert_fresh.
    + apply Forall_insert; [exact Hr|].
      pose proof (randint_range 1 (N + 1) r0 HN). lia.
Qed.

Lemma mutations_distinct (ifuel : nat) (N nrep : Z) (tmp : loc) (nmut : Z)
  (n : nat) (h h' : store) (r r' : RNG) :
  (exists a, h !! tmp = Some a /\ distinct_in_range n N a) ->
  mutations ifuel N nrep tmp nmut (h, r) = Ok (h', r') ->
  exists a', h' !! tmp = Some a' /\ distinct_in_range n N a'.
Proof.
  unfold mutations. intros Ha E.
  apply (for_each_inv
    (fun hr : store * RNG =>
       exists a, fst hr !! tmp = Some a /\ distinct_in_range n N a)) in E;
    [exact E| |exact Ha].
  intros _ [h1 r1] [h2 r2] H1 E1. simpl in *.
  eapply mutation_distinct; eassumption.
Qed.

End MutationFacts.

(** ** One turn of the search loop *)

Section SearchFacts.
Context {acc : Accessor} {la : Linalg} {hs : Hessian} {rnd : Random}.
Variables (nrep nitemax num_cores : Z) (sqrtinvcov : matrix).
Variables (prior_cv prior_std : Z -> Z -> float).

Local Abbreviation evaluate :=
  (evaluate nrep num_cores sqrtinvcov prior_cv prior_std).
Local Abbreviation body :=
  (body nrep num_cores sqrtinvcov prior_cv prior_std).
Local Abbreviation search_loop :=
  (search_loop nrep nitemax num_cores sqrtinvcov prior_cv prior_std).
Local Abbreviation trace :=
  (trace nrep nitemax num_cores sqrtinvcov prior_cv prior_std).

Lemma generate_first (ifuel : nat) (st : state) :
  nite st <= 0 -> generate nrep ifuel st = Ok st.
Proof.
  intros Hn. unfold generate.
  replace (0 <? nite st) with false by (symmetry; apply Z.ltb_ge; exact Hn).
  reflexivity.
Qed.

(** The candidate generator works on a new array: the accepted array, the
    best score and the counter are as before. *)
Lemma generate_Ok (ifuel : nat) (st st' : state) :
  0 < nite st -> generate nrep ifuel st = Ok st' ->
  nite st' = nite st /\ berf st' = berf st /\ index st' = index st /\
  indextmp st' = length (heap st) /\
  length (heap st') = S (length (heap st)) /\
  (forall l, (l < length (heap st))%nat -> heap st' !! l = heap st !! l) /\
  (exists a, heap st' !! indextmp st' = Some a /\ pdf st' = rebase a (pdf st)).
Proof.
  intros Hn E. rewrite generate_unfold in E by exact Hn.
  inv_bind E as [tmp h1] Hc.
  inv_bind E as [h2 r2] Hm.
  inv_bind E as a Hd. injection E as <-. simpl.
  apply copy_Ok in Hc as (a0 & Ha0 & -> & ->).
  apply mutations_frame in Hm as [Hlen Hfr].
  apply deref_Ok in Hd.
  rewrite Hlen, length_app. simpl.
  repeat split; try reflexivity; try lia.
  - intros l Hl. rewrite Hfr by lia. now apply lookup_app_l.
  - eauto.
Qed.

Lemma generate_wf (ifuel : nat) (st st' : state) :
  wf st -> generate nrep ifuel st = Ok st' -> wf st'.
Proof.
  intros [Hi Ht] E. destruct (Z.lt_ge_cases 0 (nite st)) as [Hn|Hn].
  - apply generate_Ok in E as (_ & _ & Ei & Et & El & _); [|exact Hn].
    unfold wf. rewrite Ei, Et, El. lia.
  - rewrite generate_first in E by lia. injection E as <-. now split.
Qed.

(** Whatever the iteration, the generator leaves the counter, the best
    score and the accepted array as they are. *)
Lemma generate_keeps (ifuel : nat) (st st' : state) :
  wf st -> generate nrep ifuel st = Ok st' ->
  nite st' = nite st /\ berf st' = berf st /\ index st' = index st /\
  heap st' !! index st' = heap st !! index st.
Proof.
  intros [Hi Ht] E. destruct (Z.lt_ge_cases 0 (nite st)) as [Hn|Hn].
  - apply generate_Ok in E as (En & Eb & Ei & _ & _ & Hfr & _); [|exact Hn].
    rewrite Ei. auto using Hfr.
  - rewrite generate_first in E by lia. injection E as <-. auto.
Qed.

(** The acceptance test: a strictly smaller score replaces the best score
    and a copy of the candidate becomes the accepted array; otherwise only
    the counter moves. *)
Lemma accept_Ok (est : float) (st : state) :
  (indextmp st < length (heap st))%nat ->
  exists st', accept est st = Ok st' /\
    nite st' = nite st + 1 /\ pdf st' = pdf st /\ rng st' = rng st /\
    indextmp st' = indextmp st /\
    (forall l, (l < length (heap st))%nat -> heap st' !! l = heap st !! l) /\
    ((est <? berf st)%float = true ->
       berf st' = est /\ index st' = length (heap st) /\
       heap st' !! index st' = heap st !! indextmp st /\
       length (heap st') = S (length (heap st))) /\
    ((est <? berf st)%float = false ->
       berf st' = berf st /\ index st' = index st /\ heap st' = heap st).
Proof.
  intros Ht. unfold accept.
  destruct (est <? berf st)%float eqn:E.
  - destruct (copy_total _ _ Ht) as (a & Ha & ->). simpl.
    eexists. split; [reflexivity|]. simpl.
    repeat split; try reflexivity; try discriminate.
    + intros l Hl. now apply lookup_app_l.
    + rewrite Ha. apply list_lookup_middle. reflexivity.
    + rewrite length_app. simpl. lia.
  - simpl. eexists. split; [reflexivity|]. simpl.
    repeat split; try reflexivity; try discriminate.
Qed.

Lemma accept_wf (est : float) (st st' : state) :
  wf st -> accept est st = Ok st' -> wf st'.
Proof.
  intros [Hi Ht] E.
  destruct (accept_Ok est st Ht) as (st1 & E1 & _ & _ & _ & Et & _ & Hy & Hn).
  rewrite E in E1. injection E1 as <-. unfold wf.
  destruct (est <? berf st)%float.
  - destruct (Hy eq_refl) as (_ & -> & _ & ->). rewrite Et. lia.
  - destruct (Hn eq_refl) as (_ & -> & ->). rewrite Et. lia.
Qed.

(** What a turn does to the best score: it stays or strictly decreases. *)
Lemma body_berf (ifuel : nat) (st st' : state) :
  body ifuel st = Ok st' ->
  berf st' = berf st \/ (berf st' <? berf st)%float = true.
Proof.
  unfold body. intros E.
  inv_bind E. inv_bind E.
  assert (Hb : berf a = berf st).
  { destruct (Z.lt_ge_cases 0 (nite st)) as [Hn|Hn].
    - now apply generate_Ok in Ha as (_ & ? & _).
    - rewrite generate_first in Ha by lia. now injection Ha as <-. }
  destruct a0 as [|est].
  - injection E as <-. now left.
  - unfold accept in E. rewrite <- Hb.
    destruct (est <? berf a)%float eqn:El.
    + inv_bind E as st1 H1. inv_bind H1 as [l h] Hc.
      injection H1 as <-. injection E as <-. simpl. now right.
    + simpl in E. injection E as <-. now left.
Qed.

Lemma body_wf (ifuel : nat) (st st' : state) :
  wf st -> body ifuel st = Ok st' -> wf st'.
Proof.
  unfold body. intros Hw E.
  inv_bind E. inv_bind E. apply generate_wf in Ha; [|exact Hw].
  destruct a0 as [|est].
  - now injection E as <-.
  - eapply accept_wf; eassumption.
Qed.

End SearchFacts.

(** ** The run of the loop *)

Section LoopFacts.
Context {acc : Accessor} {la : Linalg} {hs : Hessian} {rnd : Random}.
Variables (nrep nitemax num_cores : Z) (sqrtinvcov : matrix).
Variables (prior_cv prior_std : Z -> Z -> float).

Local Abbreviation evaluate :=
  (evaluate nrep num_cores sqrtinvcov prior_cv prior_std).
Local Abbreviation body :=
  (body nrep num_cores sqrtinvcov prior_cv prior_std).
Local Abbreviation search_loop :=
  (search_loop nrep nitemax num_cores sqrtinvcov prior_cv prior_std).
Local Abbreviation trace :=
  (trace nrep nitemax num_cores sqrtinvcov prior_cv prior_std).

Lemma body_not_worse (ifuel : nat) (st st' : state) :
  not_worse st st -> body ifuel st = Ok st' ->
  not_worse st st' /\ not_worse st' st'.
Proof.
  unfold not_worse. intros Hr E.
  destruct (body_berf _ _ _ _ _ _ _ _ E) as [->|Hlt]; [now split|].
  split; [now apply FloatOrder.ltb_leb|].
  eapply FloatOrder.ltb_leb_refl, Hlt.
Qed.

Lemma trace_not_worse (ifuel fuel : nat) (st : state) :
  not_worse st st ->
  Forall (not_worse st) (trace ifuel fuel st) /\
  StronglySorted not_worse (trace ifuel fuel st).
Proof.
  revert st. induction fuel as [|k IH]; intros st Hr; simpl.
  - split; repeat constructor. exact Hr.
  - destruct (nite st <? nitemax); [|split; repeat constructor; exact Hr].
    destruct (body ifuel st) as [st'| |] eqn:E;
      try (split; repeat constructor; exact Hr).
    destruct (body_not_worse _ _ _ Hr E) as [Hle Hr'].
    destruct (IH st' Hr') as [Hall Hs].
    assert (Hall' : Forall (not_worse st) (trace ifuel k st')).
    { eapply Forall_impl; [exact Hall|]. unfold not_worse. intros s Hs'.
      eapply FloatOrder.leb_trans; eassumption. }
    split; constructor; assumption.
Qed.

(** The array variables point into the store in every state of a run. *)
Lemma initial_state_wf (p : PDF) (ambient : RNG) : wf (initial_state p ambient).
Proof. split; simpl; lia. Qed.

Lemma trace_wf (ifuel fuel : nat) (st : state) :
  wf st -> Forall wf (trace ifuel fuel st).
Proof.
  revert st. induction fuel as [|k IH]; intros st Hw; simpl.
  - constructor; [exact Hw|constructor].
  - destruct (nite st <? nitemax); [|constructor; [exact Hw|constructor]].
    destruct (body ifuel st) as [st'| |] eqn:E;
      try (constructor; [exact Hw|constructor]).
    constructor; [exact Hw|]. apply IH.
    eapply body_wf; eassumption.
Qed.

(** A turn that leaves the state as it was is repeated without end. *)
Lemma stuck_loop (ifuel fuel : nat) (st : state) :
  nite st < nitemax -> body ifuel st = Ok st ->
  search_loop ifuel fuel st = Timeout /\
  trace ifuel fuel st = replicate (S fuel) st.
Proof.
  intros Hn E. induction fuel as [|k [IH1 IH2]]; simpl; [now split|].
  replace (nite st <? nitemax) with true by (symmetry; now apply Z.ltb_lt).
  rewrite E. simpl. rewrite IH1, IH2. now split.
Qed.

End LoopFacts.

(** * The claims about the search loop *)

Section SearchClaims.
Context {acc : Accessor} {la : Linalg} {hs : Hessian} {rnd : Random}.
Variables (nrep nitemax num_cores : Z) (sqrtinvcov : matrix).
Variables (prior_cv prior_std : Z -> Z -> float).

Local Abbreviation evaluate :=
  (evaluate nrep num_cores sqrtinvcov prior_cv prior_std).
Local Abbreviation body :=
  (body nrep num_cores sqrtinvcov prior_cv prior_std).
Local Abbreviation search_loop :=
  (search_loop nrep nitemax num_cores sqrtinvcov prior_cv prior_std).
Local Abbreviation trace :=
  (trace nrep nitemax num_cores sqrtinvcov prior_cv prior_std).

(** C1, amended.  The loop starts at iteration 0 with the finite sentinel
    [1e8] as best score.  When the initial set is scored with [est], the
    turn ends at iteration 1; if [est < 1e8] the score [est] becomes the best
    score and a copy of the initial set the accepted array, and if not the
    best score stays [1e8] and the accepted array stays the one it was. *)
Theorem first_score_against_sentinel (p : PDF) (ambient : RNG) (ifuel : nat)
  (est : float) :
  evaluate p = Ok (Scored est) ->
  let st0 := initial_state p ambient in
  nite st0 = 0 /\ berf st0 = 1e8%float /\
  exists st', body ifuel st0 = Ok st' /\ nite st' = 1 /\
    ((est <? 1e8)%float = true ->
       berf st' = est /\ heap st' !! index st' = Some (fin p)) /\
    ((est <? 1e8)%float = false ->
       berf st' = 1e8%float /\ index st' = index st0 /\ heap st' = heap st0).
Proof.
  intros Ev st0. split; [reflexivity|]. split; [reflexivity|].
  assert (Ht : (indextmp st0 < length (heap st0))%nat) by (simpl; lia).
  destruct (accept_Ok est st0 Ht) as (st' & Ea & En & _ & _ & _ & _ & Hy & Hn).
  exists st'. split.
  - unfold body. rewrite generate_first by (simpl; lia).
    simpl. rewrite Ev. exact Ea.
  - split; [exact En|]. split.
    + intros Hlt. destruct (Hy Hlt) as (Hb & _ & Hh & _).
      split; [exact Hb|]. rewrite Hh. reflexivity.
    + intros Hge. destruct (Hn Hge) as (Hb & Hi & Hh). auto.
Qed.

(** C3.  When the validity check fails on the candidate that the generator
    produced from [st], the turn ends in the state [st1] the generator left:
    no score is computed and the acceptance test is not run.  The best score,
    the accepted array (the variable and its contents) and the iteration
    counter are those of [st], and the loop goes on from [st1] with the same
    counter. *)
Theorem degenerate_candidate_discarded (ifuel : nat) (st st1 : state) :
  wf st ->
  generate nrep ifuel st = Ok st1 ->
  evaluate (pdf st1) = Ok Degenerate ->
  body ifuel st = Ok st1 /\
  berf st1 = berf st /\
  index st1 = index st /\
  heap st1 !! index st1 = heap st !! index st /\
  nite st1 = nite st /\
  forall fuel, nite st < nitemax ->
    search_loop ifuel (S fuel) st = search_loop ifuel fuel st1.
Proof.
  intros [Hi Ht] Eg Ev.
  assert (Eb : body ifuel st = Ok st1).
  { unfold body. rewrite Eg. simpl. rewrite Ev. reflexivity. }
  split; [exact Eb|].
  assert (Hs : berf st1 = berf st /\ index st1 = index st /\
               heap st1 !! index st1 = heap st !! index st /\
               nite st1 = nite st).
  { destruct (Z.lt_ge_cases 0 (nite st)) as [Hn|Hn].
    - apply generate_Ok in Eg as (En & Eb' & Ei & _ & _ & Hfr & _); [|exact Hn].
      rewrite Ei. auto using Hfr.
    - rewrite generate_first in Eg by lia. injection Eg as <-. auto. }
  destruct Hs as (? & ? & ? & ?). repeat split; try assumption.
  intros fuel Hlt. simpl.
  replace (nite st <? nitemax) with true by (symmetry; now apply Z.ltb_lt).
  rewrite Eb. reflexivity.
Qed.

(** C4.  A turn of the loop hands the score [est] of the candidate that the
    generator produced to the acceptance test, and the candidate is accepted
    exactly when [est] is strictly below the best score.  If it is, [est]
    becomes the best score and the accepted array is a new copy of the
    candidate; if it is not, the best score, the accepted variable and the
    contents of the accepted array are those from before the turn, and the
    store is as the generator left it.  In both cases the turn is counted.
    Along every run of the loop, each state's best score is below or equal
    to that of every earlier state. *)
Theorem accept_iff_strictly_better (ifuel fuel : nat) (st st1 : state)
  (est : float) :
  wf st ->
  (berf st <=? berf st)%float = true ->
  generate nrep ifuel st = Ok st1 ->
  evaluate (pdf st1) = Ok (Scored est) ->
  (exists st', body ifuel st = Ok st' /\
     nite st' = nite st + 1 /\
     ((est <? berf st)%float = true ->
        berf st' = est /\
        heap st' !! index st' = heap st1 !! indextmp st1 /\
        index st' <> indextmp st') /\
     ((est <? berf st)%float = false ->
        berf st' = berf st /\ index st' = index st /\
        heap st' = heap st1 /\
        heap st' !! index st' = heap st !! index st)) /\
  StronglySorted (fun s s' => (berf s' <=? berf s)%float = true)
    (trace ifuel fuel st).
Proof.
  intros Hw Hr Eg Ev. split.
  - destruct (generate_wf nrep ifuel st st1 Hw Eg) as [Hi1 Ht1].
    destruct (generate_keeps nrep ifuel st st1 Hw Eg) as (En & Eb & Ei & Eh).
    destruct (accept_Ok est st1 Ht1)
      as (st' & Ea & En' & _ & _ & Et & _ & Hy & Hn).
    exists st'. split.
    { unfold body. rewrite Eg. simpl. rewrite Ev. exact Ea. }
    split; [lia|]. rewrite <- Eb. split.
    + intros Hlt. destruct (Hy Hlt) as (Hb & Hi & Hh & _).
      split; [exact Hb|]. split; [exact Hh|]. rewrite Hi, Et. lia.
    + intros Hge. destruct (Hn Hge) as (Hb & Hi' & Hh).
      split; [exact Hb|]. split; [congruence|]. split; [exact Hh|].
      rewrite Hi', Hh. exact Eh.
  - apply (trace_not_worse nrep nitemax num_cores sqrtinvcov prior_cv prior_std
             ifuel fuel st Hr).
Qed.

End SearchClaims.

Section StartClaims.
Context {acc : Accessor} {la : Linalg} {hs : Hessian} {rnd : Random}.
Variables (nrep nitemax num_cores : Z) (sqrtinvcov : matrix).
Variables (prior_cv prior_std : Z -> Z -> float).

Local Abbreviation evaluate :=
  (evaluate nrep num_cores sqrtinvcov prior_cv prior_std).
Local Abbreviation body :=
  (body nrep num_cores sqrtinvcov prior_cv prior_std).

(** C8.  At iteration 0 the generator returns the state as it is: no array
    is written, the accessor is not rebased and the random generator is not
    advanced, so the first turn evaluates the initial set [pdf.fin].  At an
    iteration [>= 1] the candidate is a new array, at a location that was
    not in the store: the mutation loop runs on the store to which a copy of
    the accepted array [a] has been added, from the generator as the uniform
    draw left it, and what it leaves at the new location is the candidate,
    on which the accessor is rebased.  The candidate has the length of [a]
    and differs from it at four positions at most, and the accepted array
    keeps its location and its contents. *)
Theorem first_iteration_unmutated (p : PDF) (ambient : RNG) (ifuel : nat) :
  let st0 := initial_state p ambient in
  (generate nrep ifuel st0 = Ok st0 /\
   heap st0 !! indextmp st0 = Some (fin p) /\
   pdf st0 = p /\
   body ifuel st0 =
     (o ← evaluate p;
      match o with
      | Degenerate => Ok st0
      | Scored est => accept est st0
      end)) /\
  (forall st, nite st <= 0 -> generate nrep ifuel st = Ok st) /\
  (forall st st', 0 < nite st -> wf st -> generate nrep ifuel st = Ok st' ->
     indextmp st' = length (heap st) /\
     indextmp st' <> index st' /\
     index st' = index st /\
     heap st' !! index st' = heap st !! index st /\
     exists a a',
       heap st !! index st = Some a /\
       mutations ifuel (n_rep (pdf st)) nrep (length (heap st))
         (nmut_of (fst (uniform (rng st))))
         (heap st ++ [a], snd (uniform (rng st))) = Ok (heap st', rng st') /\
       heap st' !! indextmp st' = Some a' /\
       length a' = length a /\ (hamming a a' <= 4)%nat /\
       pdf st' = rebase a' (pdf st)).
Proof.
  intros st0. split; [|split].
  - assert (Eg : generate nrep ifuel st0 = Ok st0)
      by (apply generate_first; simpl; lia).
    split; [exact Eg|]. split; [reflexivity|]. split; [reflexivity|].
    unfold body. rewrite Eg. reflexivity.
  - intros st Hn. now apply generate_first.
  - intros st st' Hn [Hi Ht] Eg. pose proof Eg as Eg'.
    apply generate_Ok in Eg' as (_ & _ & Ei & Et & _ & Hfr & _); [|exact Hn].
    split; [exact Et|]. split; [rewrite Et, Ei; lia|]. split; [exact Ei|].
    split; [rewrite Ei; now apply Hfr|].
    rewrite generate_unfold in Eg by exact Hn.
    inv_bind Eg as [tmp h1] Hc. inv_bind Eg as [h2 r2] Hm.
    inv_bind Eg as c Hd. injection Eg as <-. simpl.
    apply copy_Ok in Hc as (a & Ha & -> & ->). apply deref_Ok in Hd.
    exists a, c. split; [exact Ha|]. split; [exact Hm|]. split; [exact Hd|].
    unfold mutations in Hm.
    apply (mutations_hamming _ _ _ _ a _ _ _ _ _ a) in Hm
      as (a' & Ha' & Hl & Hh);
      [|now apply list_lookup_middle|reflexivity].
    rewrite Hd in Ha'. injection Ha' as <-.
    split; [exact Hl|]. split; [|reflexivity].
    rewrite hamming_same, length_range in Hh.
    pose proof (nmut_of_bounds (fst (uniform (rng st)))). lia.
Qed.

End StartClaims.

Section MainClaims.
Context {acc : Accessor} {la : Linalg} {hs : Hessian} {rnd : Random}.

(** C9.  If the validity check fails on the initial set, the loop of [main]
    with a positive iteration budget gives no result, whatever the number of
    turns it is allowed: every turn starts from the initial state. *)
Theorem degenerate_start_never_ends (pdf_name : string) (nrep : Z)
  (Q epsilon : float) (max_iters num_cores : Z) (ambient : RNG) :
  let p := LocalPDF pdf_name nrep Q epsilon in
  let sqrtinvcov := snd (invcov_sqrtinvcov (pdfcovmat p)) in
  0 < max_iters ->
  evaluate nrep num_cores sqrtinvcov (f0 p) (std p) p = Ok Degenerate ->
  forall ifuel fuel,
    main pdf_name nrep Q epsilon max_iters num_cores ambient ifuel fuel
      = Timeout /\
    trace nrep max_iters num_cores sqrtinvcov (f0 p) (std p) ifuel fuel
      (initial_state p ambient)
      = replicate (S fuel) (initial_state p ambient).
Proof.
  intros p sqrtinvcov Hmax Ev ifuel fuel.
  assert (Eb : body nrep num_cores sqrtinvcov (f0 p) (std p) ifuel
                 (initial_state p ambient) = Ok (initial_state p ambient)).
  { unfold body. rewrite generate_first by (simpl; lia). simpl.
    rewrite Ev. reflexivity. }
  destruct (stuck_loop nrep max_iters num_cores sqrtinvcov (f0 p) (std p)
              ifuel fuel (initial_state p ambient) Hmax Eb) as [El Et].
  split; [|exact Et].
  unfold main. fold p. subst sqrtinvcov.
  destruct (invcov_sqrtinvcov (pdfcovmat p)) as [invcov s]. simpl in *.
  rewrite El. reflexivity.
Qed.

End MainClaims.

(** * The claims about the score and the Hessian basis *)

Lemma fold_left_flat_map {A B C : Type} (g : A -> C -> A) (k : B -> list C)
  (l : list B) (a : A) :
  fold_left g (flat_map k l) a = fold_left (fun a x => fold_left g (k x) a) l a.
Proof.
  revert a. induction l as [|x l IH]; intros a; simpl; [reflexivity|].
  now rewrite fold_left_app, IH.
Qed.

Lemma fold_left_map {A B C : Type} (g : A -> C -> A) (k : B -> C)
  (l : list B) (a : A) :
  fold_left g (map k l) a = fold_left (fun a x => g a (k x)) l a.
Proof.
  revert a. induction l as [|x l IH]; intros a; simpl; [reflexivity|apply IH].
Qed.

Lemma fold_left_filter {A B : Type} (g : A -> B -> A) (c : B -> bool)
  (l : list B) (a : A) :
  fold_left (fun a x => if c x then g a x else a) l a =
  fold_left g (List.filter c l) a.
Proof.
  revert a. induction l as [|x l IH]; intros a; simpl; [reflexivity|].
  destruct (c x); simpl; apply IH.
Qed.

Lemma fold_left_ext_in {A B : Type} (g g' : A -> B -> A) (l : list B) (a : A) :
  (forall a x, In x l -> g a x = g' a x) ->
  fold_left g l a = fold_left g' l a.
Proof.
  revert a. induction l as [|x l IH]; intros a Hg; simpl; [reflexivity|].
  rewrite Hg by (now left). apply IH. intros; apply Hg; now right.
Qed.

Section ScoreClaims.
Context {acc : Accessor}.
Variables (nrep : Z) (prior_cv prior_std : Z -> Z -> float).
Variable p : PDF.

Local Abbreviation counted := (counted prior_std p).
Local Abbreviation deviation := (deviation nrep prior_cv prior_std p).

Lemma erf_sum {hs : Hessian} (vec : matrix) :
  erf nrep prior_cv prior_std vec p =
  fold_left (fun est fx => (est + deviation vec fx)%float)
    (List.filter counted grid) 0%float.
Proof.
  unfold erf, grid. rewrite <- fold_left_filter, fold_left_flat_map.
  apply fold_left_ext_in. intros est f _.
  rewrite fold_left_map. apply fold_left_ext_in. intros est' x _.
  unfold erf_point, counted, deviation. simpl.
  destruct (mask p f x); simpl; [|reflexivity].
  destruct (prior_std f x =? 0)%float; reflexivity.
Qed.

(** C5.  The score is the sum, from 0 and in the order of the loops, of
    [|(t1 - t0) / t0|] over the grid points that the mask marks valid and
    whose prior standard deviation [t0] is not 0.  A point that the mask
    excludes, or whose prior standard deviation is 0, leaves the running sum
    as it is, and the score is the same for any two Hessian projections that
    agree on the points that count. *)
Theorem erf_sums_counted_points {hs : Hessian} (vec : matrix) :
  erf nrep prior_cv prior_std vec p =
    fold_left (fun est fx => (est + deviation vec fx)%float)
      (List.filter counted grid) 0%float /\
  (forall est f x,
     mask p f x = false \/ (prior_std f x =? 0)%float = true ->
     erf_point nrep prior_cv prior_std vec p est f x = est) /\
  (forall (hs' : Hessian) (vec' : matrix),
     (forall f x, In (f, x) grid -> counted (f, x) = true ->
        comp_hess (Hessian := hs') nrep vec' (xfxQ p) f x (prior_cv f x)
        = comp_hess nrep vec (xfxQ p) f x (prior_cv f x)) ->
     erf (hs := hs') nrep prior_cv prior_std vec' p
     = erf nrep prior_cv prior_std vec p).
Proof.
  split; [apply erf_sum|]. split.
  - intros est f x [Hm|Hz]; unfold erf_point.
    + now rewrite Hm.
    + rewrite Hz. simpl. now destruct (mask p f x).
  - intros hs' vec' Hag. rewrite !erf_sum.
    apply fold_left_ext_in. intros est fx Hin.
    apply filter_In in Hin as [Hin Hc]. destruct fx as [f x].
    unfold deviation. simpl. now rewrite Hag.
Qed.

End ScoreClaims.

(** What the rescaling loop computes: row [i] of the matrix divided by
    [eigenvalues[i] ** 0.5]. *)
Lemma rescale_from_rows {la : Linalg} (eigenvalues : vector) (vec m : matrix)
  (k : nat) :
  rescale_from eigenvalues k vec = Ok m ->
  length m = length vec /\
  forall i row, vec !! i = Some row ->
    exists e, eigenvalues !! (k + i)%nat = Some e /\
      m !! i = Some (map (fun v => (v / power e 0.5)%float) row).
Proof.
  revert m k. induction vec as [|r rows IH]; intros m k E; simpl in E.
  - injection E as <-. split; [reflexivity|]. intros i row Hi. inversion Hi.
  - inv_bind E as r' Hr. inv_bind E as rows' Hrs. injection E as <-.
    destruct (IH _ _ Hrs) as [Hlen Hrows]. split; [simpl; now rewrite Hlen|].
    unfold rescale_row in Hr.
    destruct (eigenvalues !! k) as [e|] eqn:Ek; [|discriminate].
    injection Hr as <-.
    intros [|i] row Hi; simpl in Hi.
    + injection Hi as <-. exists e. rewrite Nat.add_0_r. now split.
    + destruct (Hrows i row Hi) as (e' & He' & Hm).
      exists e'. rewrite <- Nat.add_succ_comm. now split.
Qed.

(** C2, on the eigensystem of [[2.5, 1.5], [1.5, 2.5]], for every [pow]
    that is exact at the two eigenvalues: [1 ** 0.5 = 1] and [4 ** 0.5 = 2].
    The loop of line 110 divides row [i] of the eigenvector matrix by the
    square root of eigenvalue [i]; dividing every eigenvector, that is every
    column [j], by the square root of its own eigenvalue [j] gives another
    matrix. *)
Theorem rescale_divides_rows_not_columns {la : Linalg} :
  power 1 0.5 = 1%float -> power 4 0.5 = 2%float ->
  rescale eigenvalues_2 vec_2 =
    Ok [[-0.70710678118654746; 0.70710678118654746];
        [0.35355339059327373; 0.35355339059327373]]%float /\
  rescale_columns eigenvalues_2 vec_2 =
    [[-0.70710678118654746; 0.35355339059327373];
     [0.70710678118654746; 0.35355339059327373]]%float /\
  rescale eigenvalues_2 vec_2 <> Ok (rescale_columns eigenvalues_2 vec_2).
Proof.
  intros H1 H4.
  assert (Er : rescale eigenvalues_2 vec_2 =
    Ok [[-0.70710678118654746; 0.70710678118654746];
        [0.35355339059327373; 0.35355339059327373]]%float).
  { unfold rescale, eigenvalues_2, vec_2. cbn [rescale_from].
    unfold rescale_row. cbn [lookup list_lookup map mbind result_bind].
    rewrite H1, H4. vm_compute. reflexivity. }
  assert (Ec : rescale_columns eigenvalues_2 vec_2 =
    [[-0.70710678118654746; 0.35355339059327373];
     [0.70710678118654746; 0.35355339059327373]]%float).
  { unfold rescale_columns, eigenvalues_2, vec_2. cbn [map zip_with].
    rewrite H1, H4. vm_compute. reflexivity. }
  split; [exact Er|]. split; [exact Ec|].
  rewrite Er, Ec. intros E.
  apply (f_equal (fun r : result matrix =>
           match r with
           | Ok ((_ :: x :: _) :: _) => (x =? 0.70710678118654746)%float
           | _ => false
           end)) in E.
  vm_compute in E. discriminate.
Qed.

(** * The claims about the candidate generator *)

(** C6.  At an iteration [>= 1] the generator draws one uniform number [g]
    and applies to the copy of the accepted array one mutation when
    [g <= 0.3], two mutations when [0.3 < g <= 0.6], three when
    [0.6 < g <= 0.7], and four when [g > 0.7], as in every other case; the
    mutations start from the generator as that one draw left it. *)
Theorem mutation_count_from_one_draw {acc : Accessor} {rnd : Random}
  (nrep : Z) (ifuel : nat) (st : state) :
  0 < nite st ->
  let g := fst (uniform (rng st)) in
  ((g <=? 0.3)%float = true ->
     generate nrep ifuel st = generate_with 1 nrep ifuel st) /\
  ((0.3 <? g)%float = true -> (g <=? 0.6)%float = true ->
     generate nrep ifuel st = generate_with 2 nrep ifuel st) /\
  ((0.6 <? g)%float = true -> (g <=? 0.7)%float = true ->
     generate nrep ifuel st = generate_with 3 nrep ifuel st) /\
  ((0.7 <? g)%float = true ->
     generate nrep ifuel st = generate_with 4 nrep ifuel st) /\
  ((g <=? 0.7)%float = false ->
     generate nrep ifuel st = generate_with 4 nrep ifuel st).
Proof.
  intros Hn g.
  destruct (nmut_of_table g) as (T1 & T2 & T3 & T4 & T5).
  rewrite (generate_repeated nrep ifuel st Hn). fold g.
  repeat split; intros.
  - now rewrite T1.
  - now rewrite T2.
  - now rewrite T3.
  - now rewrite T4.
  - now rewrite T5.
Qed.


(** * The runs on the small instance *)

Lemma tiny_randint_range (script : Z -> list Z) (lo hi : Z) (r : list Z) :
  lo < hi -> lo <= fst (randint (Random := Tiny.random script) lo hi r) < hi.
Proof.
  intros Hlt. simpl.
  pose proof (Z.mod_pos_bound (fst (Tiny.raw r)) (hi - lo)). lia.
Qed.

(** C1 as stated fails on [Tiny.wide], with a basis of two replicas.  The
    design matrix of the initial set is the identity, so the coefficients of
    the nine replicas are their values; their covariance is [[4, 0], [0, 1]]
    and its inverse [[0.25, 0], [0, 1]], with eigenvalues 0.25 and 1 and the
    unit vectors as eigenvectors; the rescaled rows are [2, 0] and [0, 1]
    and the estimates at the two points 2 and 1.  Against the prior
    [2^-30] the score is [(2^31 - 1) + (2^30 - 1) = 3221225470], a finite
    number that is not below [1e8]: the best score after the turn is still
    [1e8], and so is the final ERF of a run of one iteration. *)
Lemma first_score_above_sentinel_rejected :
  tiny_evaluate Tiny.wide Tiny.wide = Ok (Scored 3221225470%float) /\
  (abs 3221225470 <? infinity)%float = true /\
  tiny_body Tiny.wide 5%nat (tiny_start Tiny.wide)
    = Ok (tiny_state Tiny.wide 1 1e8%float 0%nat 1%nat [[1; 2]; [1; 2]]
            Tiny.wide []) /\
  (1e8 =? 3221225470)%float = false /\
  tiny_main Tiny.wide 1 5%nat 5%nat
    = Ok (Report 1 1e8%float "tiny" 2 1%float 0%float [1; 2]).
Proof. repeat split; vm_compute; reflexivity. Qed.

Lemma first_score_against_sentinel_witness :
  tiny_evaluate Tiny.good Tiny.good = Ok (Scored 1%float) /\
  exists st', tiny_body Tiny.good 5%nat (tiny_start Tiny.good) = Ok st' /\
    nite st' = 1 /\ berf st' = 1%float /\
    heap st' !! index st' = Some [1; 2].
Proof.
  assert (Ev : tiny_evaluate Tiny.good Tiny.good = Ok (Scored 1%float))
    by (vm_compute; reflexivity).
  split; [exact Ev|].
  destruct (first_score_against_sentinel
              (acc := Tiny.accessor Tiny.good) (rnd := Tiny.random no_script)
              2 4 eye2 (tiny_cv Tiny.good) (tiny_std Tiny.good)
              Tiny.good [] 5%nat _ Ev)
    as (_ & _ & st' & Eb & En & Hy & _).
  exists st'. split; [exact Eb|]. split; [exact En|].
  apply Hy. vm_compute. reflexivity.
Defined.

Lemma degenerate_candidate_discarded_witness :
  wf (mid Tiny.blown) /\
  generate 2 5%nat (mid Tiny.blown) = Ok (mid_next Tiny.blown) /\
  tiny_evaluate Tiny.blown (pdf (mid_next Tiny.blown)) = Ok Degenerate /\
  tiny_body Tiny.blown 5%nat (mid Tiny.blown) = Ok (mid_next Tiny.blown) /\
  berf (mid_next Tiny.blown) = berf (mid Tiny.blown) /\
  nite (mid_next Tiny.blown) = nite (mid Tiny.blown) /\
  heap (mid_next Tiny.blown) !! index (mid_next Tiny.blown)
    = heap (mid Tiny.blown) !! index (mid Tiny.blown).
Proof.
  assert (Hw : wf (mid Tiny.blown)) by (split; simpl; lia).
  assert (Eg : generate 2 5%nat (mid Tiny.blown) = Ok (mid_next Tiny.blown))
    by (vm_compute; reflexivity).
  assert (Ev : tiny_evaluate Tiny.blown (pdf (mid_next Tiny.blown))
               = Ok Degenerate)
    by (vm_compute; reflexivity).
  destruct (degenerate_candidate_discarded
              (acc := Tiny.accessor Tiny.blown) (rnd := Tiny.random no_script)
              2 7 4 eye2 (tiny_cv Tiny.blown) (tiny_std Tiny.blown)
              5%nat (mid Tiny.blown) (mid_next Tiny.blown) Hw Eg Ev)
    as (Eb & Hb & _ & Hh & Hn & _).
  split; [exact Hw|]. split; [exact Eg|]. split; [exact Ev|].
  split; [exact Eb|]. split; [exact Hb|]. split; [exact Hn|exact Hh].
Defined.

Lemma accept_iff_strictly_better_witness :
  wf (tiny_start Tiny.good) /\
  (berf (tiny_start Tiny.good) <=? berf (tiny_start Tiny.good))%float = true /\
  generate 2 5%nat (tiny_start Tiny.good) = Ok (tiny_start Tiny.good) /\
  tiny_evaluate Tiny.good (pdf (tiny_start Tiny.good)) = Ok (Scored 1%float) /\
  (exists st', tiny_body Tiny.good 5%nat (tiny_start Tiny.good) = Ok st' /\
     nite st' = 1 /\ berf st' = 1%float /\
     heap st' !! index st' = Some [1; 2] /\ index st' <> indextmp st') /\
  StronglySorted (fun s s' => (berf s' <=? berf s)%float = true)
    (trace (acc := Tiny.accessor Tiny.good) (la := Tiny.linalg)
       (hs := Tiny.hessian) (rnd := Tiny.random no_script)
       2 1 4 eye2 (tiny_cv Tiny.good) (tiny_std Tiny.good)
       5%nat 3%nat (tiny_start Tiny.good)).
Proof.
  assert (Hw : wf (tiny_start Tiny.good)) by (split; simpl; lia).
  assert (Hr : (berf (tiny_start Tiny.good)
                <=? berf (tiny_start Tiny.good))%float = true)
    by (vm_compute; reflexivity).
  assert (Eg : generate 2 5%nat (tiny_start Tiny.good)
               = Ok (tiny_start Tiny.good))
    by (vm_compute; reflexivity).
  assert (Ev : tiny_evaluate Tiny.good (pdf (tiny_start Tiny.good))
               = Ok (Scored 1%float))
    by (vm_compute; reflexivity).
  destruct (accept_iff_strictly_better
              (acc := Tiny.accessor Tiny.good) (la := Tiny.linalg)
              (hs := Tiny.hessian) (rnd := Tiny.random no_script)
              2 1 4 eye2 (tiny_cv Tiny.good) (tiny_std Tiny.good)
              5%nat 3%nat (tiny_start Tiny.good) (tiny_start Tiny.good)
              1%float Hw Hr Eg Ev)
    as ((st' & Eb & En & Hy & _) & Hs).
  split; [exact Hw|]. split; [exact Hr|]. split; [exact Eg|].
  split; [exact Ev|]. split; [|exact Hs].
  exists st'. split; [exact Eb|]. split; [exact En|].
  destruct Hy as (Hb & Hh & Hne); [vm_compute; reflexivity|].
  split; [exact Hb|]. split; [exact Hh|exact Hne].
Defined.

Lemma erf_sums_counted_points_witness :
  erf_point (acc := Tiny.accessor Tiny.still) (hs := Tiny.hessian)
    2 (tiny_cv Tiny.still) (tiny_std Tiny.still) eye2 Tiny.still 7%float 0 1
    = 7%float /\
  erf (acc := Tiny.accessor Tiny.still) (hs := null_hessian)
    2 (tiny_cv Tiny.still) (tiny_std Tiny.still) [[5%float]] Tiny.still
  = erf (acc := Tiny.accessor Tiny.still) (hs := Tiny.hessian)
      2 (tiny_cv Tiny.still) (tiny_std Tiny.still) eye2 Tiny.still.
Proof.
  destruct (erf_sums_counted_points
              (acc := Tiny.accessor Tiny.still) 2 (tiny_cv Tiny.still)
              (tiny_std Tiny.still) Tiny.still (hs := Tiny.hessian) eye2)
    as (_ & Hpt & Hag).
  split.
  - apply Hpt. right. vm_compute. reflexivity.
  - apply (Hag null_hessian [[5%float]]). intros f x Hin Hc.
    destruct Hin as [E|[E|[]]]; injection E as <- <-;
      vm_compute in Hc; discriminate.
Defined.

Lemma mutation_count_from_one_draw_witness :
  0 < nite (drawing 100) /\
  generate 2 5%nat (drawing 100) = generate_with 1 2 5%nat (drawing 100) /\
  generate 2 5%nat (drawing 500) = generate_with 2 2 5%nat (drawing 500) /\
  generate 2 5%nat (drawing 650) = generate_with 3 2 5%nat (drawing 650) /\
  generate 2 5%nat (drawing 900) = generate_with 4 2 5%nat (drawing 900) /\
  (st' ← generate 2 5%nat (drawing 100); Np.deref (indextmp st') (heap st'))
    = Ok [3; 2] /\
  (st' ← generate 2 5%nat (drawing 900); Np.deref (indextmp st') (heap st'))
    = Ok [5; 6].
Proof.
  assert (Hn : forall x, 0 < nite (drawing x)) by (intros; simpl; lia).
  split; [apply Hn|].
  destruct (mutation_count_from_one_draw 2 5%nat (drawing 100) (Hn 100))
    as (T1 & _).
  destruct (mutation_count_from_one_draw 2 5%nat (drawing 500) (Hn 500))
    as (_ & T2 & _).
  destruct (mutation_count_from_one_draw 2 5%nat (drawing 650) (Hn 650))
    as (_ & _ & T3 & _).
  destruct (mutation_count_from_one_draw 2 5%nat (drawing 900) (Hn 900))
    as (_ & _ & _ & T4 & _).
  split; [apply T1; vm_compute; reflexivity|].
  split; [apply T2; vm_compute; reflexivity|].
  split; [apply T3; vm_compute; reflexivity|].
  split; [apply T4; vm_compute; reflexivity|].
  split; vm_compute; reflexivity.
Defined.



Lemma first_iteration_unmutated_witness :
  0 < nite (mid Tiny.good) /\ wf (mid Tiny.good) /\
  generate 2 5%nat (mid Tiny.good) = Ok (mid_next Tiny.good) /\
  indextmp (mid_next Tiny.good) = length (heap (mid Tiny.good)) /\
  indextmp (mid_next Tiny.good) <> index (mid_next Tiny.good) /\
  heap (mid_next Tiny.good) !! index (mid_next Tiny.good)
    = heap (mid Tiny.good) !! index (mid Tiny.good) /\
  exists a a',
    heap (mid Tiny.good) !! index (mid Tiny.good) = Some a /\
    heap (mid_next Tiny.good) !! indextmp (mid_next Tiny.good) = Some a' /\
    length a' = length a /\ (hamming a a' <= 4)%nat.
Proof.
  assert (Hn : 0 < nite (mid Tiny.good)) by (simpl; lia).
  assert (Hw : wf (mid Tiny.good)) by (split; simpl; lia).
  assert (Eg : generate 2 5%nat (mid Tiny.good) = Ok (mid_next Tiny.good))
    by (vm_compute; reflexivity).
  destruct (first_iteration_unmutated
              (acc := Tiny.accessor Tiny.good) (la := Tiny.linalg)
              (hs := Tiny.hessian) (rnd := Tiny.random no_script)
              2 4 eye2 (tiny_cv Tiny.good) (tiny_std Tiny.good)
              Tiny.good [] 5%nat)
    as (_ & _ & Hgen).
  destruct (Hgen (mid Tiny.good) (mid_next Tiny.good) Hn Hw Eg)
    as (Ht & Hne & _ & Hh & a & a' & Ha & _ & Ha' & Hl & Hd & _).
  split; [exact Hn|]. split; [exact Hw|]. split; [exact Eg|].
  split; [exact Ht|]. split; [exact Hne|]. split; [exact Hh|].
  exists a, a'. split; [exact Ha|]. split; [exact Ha'|].
  split; [exact Hl|exact Hd].
Defined.

Lemma degenerate_start_never_ends_witness :
  0 < 3 /\
  tiny_evaluate Tiny.blown Tiny.blown = Ok Degenerate /\
  tiny_main Tiny.blown 3 5%nat 7%nat = Timeout.
Proof.
  assert (Hm : 0 < 3) by lia.
  assert (Ev : tiny_evaluate Tiny.blown Tiny.blown = Ok Degenerate)
    by (vm_compute; reflexivity).
  split; [exact Hm|]. split; [exact Ev|].
  apply (degenerate_start_never_ends
           (acc := Tiny.accessor Tiny.blown) (la := Tiny.linalg)
           (hs := Tiny.hessian) (rnd := Tiny.random no_script)
           "tiny" 2 1%float 0%float 3 4 [] Hm Ev 5%nat 7%nat).
Defined.

(** * Further properties of the search loop *)

Section BudgetFacts.
Context {acc : Accessor} {la : Linalg} {hs : Hessian} {rnd : Random}.
Variables (nrep nitemax num_cores : Z) (sqrtinvcov : matrix).
Variables (prior_cv prior_std : Z -> Z -> float).

Local Abbreviation evaluate :=
  (evaluate nrep num_cores sqrtinvcov prior_cv prior_std).
Local Abbreviation body :=
  (body nrep num_cores sqrtinvcov prior_cv prior_std).
Local Abbreviation search_loop :=
  (search_loop nrep nitemax num_cores sqrtinvcov prior_cv prior_std).
Local Abbreviation trace :=
  (trace nrep nitemax num_cores sqrtinvcov prior_cv prior_std).






(** The best score at the end of the loop is not above the one at the
    start. *)
Lemma search_loop_not_worse (ifuel fuel : nat) (st st' : state) :
  not_worse st st -> search_loop ifuel fuel st = Ok st' ->
  not_worse st st' /\ not_worse st' st'.
Proof.
  revert st. induction fuel as [|k IH]; simpl; intros st Hr E; [discriminate|].
  destruct (nite st <? nitemax).
  - inv_bind E as s1 Eb.
    destruct (body_not_worse nrep num_cores sqrtinvcov prior_cv prior_std
                _ _ _ Hr Eb) as [H1 H1'].
    destruct (IH _ H1' E) as [H2 H2']. split; [|exact H2'].
    unfold not_worse in *.
    apply (FloatOrder.leb_trans _ (berf s1)); assumption.
  - injection E as <-. now split.
Qed.

(** A turn writes no array that was in the store before it. *)
Lemma body_frame (ifuel : nat) (st st' : state) :
  wf st -> body ifuel st = Ok st' ->
  (length (heap st) <= length (heap st'))%nat /\
  forall l, (l < length (heap st))%nat -> heap st' !! l = heap st !! l.
Proof.
  unfold body. intros Hw E. inv_bind E as s1 Eg. inv_bind E as o Ev.
  assert (Hg : (length (heap st) <= length (heap s1))%nat /\
               forall l, (l < length (heap st))%nat ->
                 heap s1 !! l = heap st !! l).
  { destruct (Z.lt_ge_cases 0 (nite st)) as [Hn|Hn].
    - apply generate_Ok in Eg as (_ & _ & _ & _ & Hl & Hfr & _); [|exact Hn].
      split; [lia|exact Hfr].
    - rewrite generate_first in Eg by lia. injection Eg as <-. now split. }
  destruct Hg as [Hl1 Hf1].
  assert (Hw1 : wf s1) by (eapply generate_wf; eassumption).
  destruct o as [|est].
  - injection E as <-. now split.
  - destruct Hw1 as [_ Ht1].
    destruct (accept_Ok est s1 Ht1)
      as (s2 & Ea & _ & _ & _ & _ & Hf2 & Hy & Hn).
    rewrite E in Ea. injection Ea as <-. split.
    + destruct (est <? berf s1)%float.
      * destruct (Hy eq_refl) as (_ & _ & _ & ->). lia.
      * destruct (Hn eq_refl) as (_ & _ & ->). lia.
    + intros l Hl. rewrite Hf2 by lia. now apply Hf1.
Qed.

(** X2.  Along a run, every array keeps the contents it had when the turn
    that allocated it was over: no later turn writes it.  In particular the
    accessor's own array [pdf.fin], at location 0, holds the initial set in
    every state of a run of [main]. *)
Theorem arrays_never_rewritten (ifuel fuel : nat) (p : PDF) (ambient : RNG) :
  (forall st, wf st ->
     Forall (fun s => forall l, (l < length (heap st))%nat ->
                        heap s !! l = heap st !! l)
       (trace ifuel fuel st)) /\
  Forall (fun s => heap s !! 0%nat = Some (fin p))
    (trace ifuel fuel (initial_state p ambient)).
Proof.
  assert (Hgen : forall st, wf st ->
     Forall (fun s => forall l, (l < length (heap st))%nat ->
                        heap s !! l = heap st !! l)
       (trace ifuel fuel st)).
  { induction fuel as [|k IH]; intros st Hw; simpl.
    - constructor; [auto|constructor].
    - destruct (nite st <? nitemax); [|constructor; [auto|constructor]].
      destruct (body ifuel st) as [s1| |] eqn:Eb;
        try (constructor; [auto|constructor]).
      constructor; [auto|].
      destruct (body_frame _ _ _ Hw Eb) as [Hl Hf].
      eapply Forall_impl; [apply IH; eapply body_wf; eassumption|].
      simpl. intros s Hs l Hlt. rewrite Hs by lia. now apply Hf. }
  split; [exact Hgen|].
  eapply Forall_impl; [apply Hgen, initial_state_wf|].
  simpl. intros s Hs. apply Hs. lia.
Qed.

End BudgetFacts.

Section ReportFacts.
Context {acc : Accessor} {la : Linalg} {hs : Hessian} {rnd : Random}.
Variables (pdf_name : string) (nrep : Z) (Q epsilon : float).
Variables (max_iters num_cores : Z) (ambient : RNG).

Let p := LocalPDF pdf_name nrep Q epsilon.
Let sqrtinvcov := snd (invcov_sqrtinvcov (pdfcovmat p)).

(** When [main] returns, the report is made of the state in which the loop
    ended. *)
Lemma main_Ok (ifuel fuel : nat) (rep : report) :
  main pdf_name nrep Q epsilon max_iters num_cores ambient ifuel fuel = Ok rep ->
  exists st a,
    search_loop nrep max_iters num_cores sqrtinvcov (f0 p) (std p) ifuel fuel
      (initial_state p ambient) = Ok st /\
    heap st !! index st = Some a /\
    rep = Report max_iters (berf st) pdf_name nrep Q epsilon
            (merge_sort Z.le a).
Proof.
  unfold main. fold p. subst sqrtinvcov.
  destruct (invcov_sqrtinvcov (pdfcovmat p)) as [invcov s]. simpl.
  intros E. inv_bind E as st Es. inv_bind E as a Ha. injection E as <-.
  apply deref_Ok in Ha. eauto.
Qed.

(** X3.  With a budget of zero iterations or less, [main] runs no turn: it
    reports the sentinel [1e8] as final ERF and the sorted initial set as
    basis. *)
Theorem main_without_budget (ifuel fuel : nat) :
  max_iters <= 0 ->
  main pdf_name nrep Q epsilon max_iters num_cores ambient ifuel (S fuel)
  = Ok (Report max_iters 1e8%float pdf_name nrep Q epsilon
          (merge_sort Z.le (fin p))).
Proof.
  intros Hm. unfold main. fold p.
  destruct (invcov_sqrtinvcov (pdfcovmat p)) as [invcov s]. simpl.
  replace (0 <? max_iters) with false by (symmetry; now apply Z.ltb_ge).
  reflexivity.
Qed.

(** X4.  The final ERF of a report is a number not above the sentinel
    [1e8]; and when the budget is positive and the initial set was scored
    with a number [est0], it is not above [est0] either. *)
Theorem final_erf_bounded (ifuel fuel : nat) (rep : report) :
  main pdf_name nrep Q epsilon max_iters num_cores ambient ifuel fuel = Ok rep ->
  (Final_ERF rep <=? 1e8)%float = true /\
  forall est0,
    0 < max_iters ->
    evaluate nrep num_cores sqrtinvcov (f0 p) (std p) p = Ok (Scored est0) ->
    (est0 <=? est0)%float = true ->
    (Final_ERF rep <=? est0)%float = true.
Proof.
  intros E. apply main_Ok in E as (st & a & Es & _ & ->). simpl. split.
  - eapply (search_loop_not_worse nrep max_iters num_cores sqrtinvcov
              (f0 p) (std p) ifuel fuel (initial_state p ambient) st);
      [reflexivity|exact Es].
  - intros est0 Hm Ev Hnum.
    destruct fuel as [|k]; [discriminate|]. simpl in Es.
    replace (0 <? max_iters) with true in Es
      by (symmetry; now apply Z.ltb_lt).
    inv_bind Es as s1 Eb.
    unfold body in Eb. rewrite generate_first in Eb by (simpl; lia).
    simpl in Eb. fold p in Eb. rewrite Ev in Eb. simpl in Eb.
    assert (Ht : (indextmp (initial_state p ambient)
                  < length (heap (initial_state p ambient)))%nat)
      by (simpl; lia).
    destruct (accept_Ok est0 _ Ht) as (s2 & Ea & _ & _ & _ & _ & _ & Hy & Hn).
    rewrite Eb in Ea. injection Ea as <-.
    destruct (est0 <? 1e8)%float eqn:Hlt.
    + destruct (Hy Hlt) as (Hb & _).
      assert (Hr : not_worse s1 s1) by (unfold not_worse; now rewrite Hb).
      destruct (search_loop_not_worse _ _ _ _ _ _ _ _ _ _ Hr Es) as [Hle _].
      unfold not_worse in Hle. now rewrite Hb in Hle.
    + destruct (Hn Hlt) as (Hb & _).
      assert (Hr : not_worse s1 s1) by (unfold not_worse; now rewrite Hb).
      destruct (search_loop_not_worse _ _ _ _ _ _ _ _ _ _ Hr Es) as [Hle _].
      unfold not_worse in Hle. rewrite Hb in Hle.
      apply (FloatOrder.leb_trans _ 1e8%float); [exact Hle|].
      apply FloatOrder.ltb_false_leb; [exact Hlt|exact Hnum|reflexivity].
Qed.

End ReportFacts.

(** ** The index sets along a run *)

Section DistinctFacts.
Context {acc : Accessor} {la : Linalg} {hs : Hessian} {rnd : Random}.
Variables (nrep nitemax num_cores : Z) (sqrtinvcov : matrix).
Variables (prior_cv prior_std : Z -> Z -> float).

Local Abbreviation body :=
  (body nrep num_cores sqrtinvcov prior_cv prior_std).
Local Abbreviation search_loop :=
  (search_loop nrep nitemax num_cores sqrtinvcov prior_cv prior_std).

Hypothesis randint_range : forall lo hi r,
  lo < hi -> lo <= fst (randint lo hi r) < hi.
Hypothesis n_rep_rebase : forall a q, n_rep (rebase a q) = n_rep q.

Variables (n : nat) (N : Z).

Lemma generate_distinct (ifuel : nat) (st st' : state) :
  arrays_distinct n N st -> generate nrep ifuel st = Ok st' ->
  arrays_distinct n N st'.
Proof.
  intros (HN & (a & Ha & Hda) & Hb) E.
  destruct (Z.lt_ge_cases 0 (nite st)) as [Hn|Hn].
  - rewrite generate_unfold in E by exact Hn.
    inv_bind E as [tmp h1] Hc. inv_bind E as [h2 r2] Hm.
    inv_bind E as c Hd. injection E as <-. simpl.
    apply copy_Ok in Hc as (a0 & Ha0 & -> & ->).
    rewrite Ha in Ha0. injection Ha0 as <-.
    apply deref_Ok in Hd.
    pose proof (lookup_lt_Some _ _ _ Ha) as Hi.
    destruct (mutations_frame _ _ _ _ _ _ _ _ _ Hm) as [_ Hfr].
    rewrite HN in Hm.
    apply (mutations_distinct randint_range _ _ _ _ _ n) in Hm as (c' & Hc' & Hdc).
    + rewrite Hd in Hc'. injection Hc' as <-.
      unfold arrays_distinct. simpl.
      split; [now rewrite n_rep_rebase|]. split.
      * exists a. split; [|exact Hda].
        rewrite Hfr by lia. now rewrite lookup_app_l.
      * exists c. now split.
    + exists a. split; [|exact Hda]. now apply list_lookup_middle.
  - rewrite generate_first in E by lia. injection E as <-.
    split; [exact HN|]. split; [eauto|exact Hb].
Qed.

Lemma accept_distinct (est : float) (st st' : state) :
  arrays_distinct n N st -> accept est st = Ok st' ->
  arrays_distinct n N st'.
Proof.
  intros (HN & (a & Ha & Hda) & (b & Hb & Hdb)) E.
  pose proof (lookup_lt_Some _ _ _ Hb) as Ht.
  pose proof (lookup_lt_Some _ _ _ Ha) as Hi.
  destruct (accept_Ok est st Ht)
    as (s2 & Ea & _ & Hp & _ & Et & Hfr & Hy & Hn).
  rewrite E in Ea. injection Ea as <-.
  split; [now rewrite Hp|].
  destruct (est <? berf st)%float.
  - destruct (Hy eq_refl) as (_ & _ & Hh & _). split.
    + exists b. split; [now rewrite Hh|exact Hdb].
    + exists b. split; [rewrite Et; now rewrite Hfr|exact Hdb].
  - destruct (Hn eq_refl) as (_ & Ei & Eh). rewrite Ei, Et, Eh. split; eauto.
Qed.

Lemma body_distinct (ifuel : nat) (st st' : state) :
  arrays_distinct n N st -> body ifuel st = Ok st' ->
  arrays_distinct n N st'.
Proof.
  unfold body. intros Hd E. inv_bind E as s1 Eg. inv_bind E as o Ev.
  apply (generate_distinct _ _ _ Hd) in Eg. destruct o as [|est].
  - now injection E as <-.
  - eapply accept_distinct; eassumption.
Qed.

Lemma search_loop_distinct (ifuel fuel : nat) (st st' : state) :
  arrays_distinct n N st -> search_loop ifuel fuel st = Ok st' ->
  arrays_distinct n N st'.
Proof.
  revert st. induction fuel as [|k IH]; simpl; intros st Hd E; [discriminate|].
  destruct (nite st <? nitemax).
  - inv_bind E as s1 Eb. eapply IH; [|exact E]. eapply body_distinct; eassumption.
  - now injection E as <-.
Qed.

End DistinctFacts.

(** X5.  If the generator's [randint] answers within its interval, [rebase]
    keeps the number of replicas [N], and the initial set [pdf.fin] holds
    [n] distinct ids of [1, N], then the basis that [main] reports is sorted
    in ascending order and holds [n] distinct ids of [1, N]. *)
Theorem reported_basis_distinct_sorted
  {acc : Accessor} {la : Linalg} {hs : Hessian} {rnd : Random}
  (randint_range : forall lo hi r, lo < hi -> lo <= fst (randint lo hi r) < hi)
  (n_rep_rebase : forall a q, n_rep (rebase a q) = n_rep q)
  (pdf_name : string) (nrep : Z) (Q epsilon : float)
  (max_iters num_cores : Z) (ambient : RNG) (ifuel fuel : nat)
  (n : nat) (rep : report) :
  let p := LocalPDF pdf_name nrep Q epsilon in
  distinct_in_range n (n_rep p) (fin p) ->
  main pdf_name nrep Q epsilon max_iters num_cores ambient ifuel fuel = Ok rep ->
  Sorted Z.le (basis rep) /\ distinct_in_range n (n_rep p) (basis rep).
Proof.
  intros p Hfin E. apply main_Ok in E as (st & a & Es & Ha & ->). simpl.
  split; [apply Sorted_merge_sort; apply _|].
  apply (search_loop_distinct _ _ _ _ _ _ randint_range n_rep_rebase
           n (n_rep p)) in Es.
  - destruct Es as (_ & (a' & Ha' & Hlen & Hd & Hr) & _).
    fold p in Ha. rewrite Ha in Ha'. injection Ha' as <-.
    unfold distinct_in_range.
    rewrite (merge_sort_Permutation Z.le a). auto.
  - split; [reflexivity|]. split; exists (fin p); split; auto.
Qed.

(** * Further properties of the candidate generator *)

Lemma contains_true (val : Z) (a : list Z) :
  val ∈ a -> Np.contains val a = true.
Proof.
  intros Hin. destruct (Np.contains val a) eqn:E; [reflexivity|].
  apply contains_false in E. contradiction.
Qed.

Section GeneratorFacts.
Context {rnd : Random}.

Hypothesis randint_range : forall lo hi r,
  lo < hi -> lo <= fst (randint lo hi r) < hi.

(** When every id of [1, N] is in the array, the rejection loop finds no
    value, however long it runs. *)
Lemma draw_val_exhausted (N : Z) (a : list Z) :
  1 <= N -> covers N a ->
  forall ifuel r, draw_val ifuel N a r = Timeout.
Proof.
  intros HN Hc. induction ifuel as [|k IH]; intros r; simpl; [reflexivity|].
  unfold np_randint.
  replace (1 <? N + 1) with true by (symmetry; apply Z.ltb_lt; lia).
  simpl. destruct (randint 1 (N + 1) r) as [val r1] eqn:Er.
  pose proof (randint_range 1 (N + 1) r ltac:(lia)) as Hv.
  rewrite Er in Hv. simpl in Hv.
  rewrite contains_true by (apply Hc; lia). simpl. apply IH.
Qed.

(** With at least one replica, the rejection loop raises nothing. *)
Lemma draw_val_no_raise (N : Z) (a : list Z) :
  1 <= N ->
  forall ifuel r, (exists v r', draw_val ifuel N a r = Ok (v, r')) \/
                  draw_val ifuel N a r = Timeout.
Proof.
  intros HN. induction ifuel as [|k IH]; intros r; simpl; [now right|].
  unfold np_randint.
  replace (1 <? N + 1) with true by (symmetry; apply Z.ltb_lt; lia).
  simpl. destruct (randint 1 (N + 1) r) as [val r1].
  destruct (Np.contains val a); simpl; [apply IH|left; eauto].
Qed.

(** X8.  One mutation on an array of [nrep] entries, with at least one
    replica in the ensemble, raises no exception: the position drawn is
    within the array.  With a basis size of zero or less it never succeeds:
    once a value is found, [randint(0, nrep)] raises [ValueError]. *)
Theorem mutation_position_in_bounds (ifuel : nat) (N nrep : Z) (tmp : loc)
  (h : store) (r : RNG) (a : list Z) :
  h !! tmp = Some a -> 1 <= N ->
  (0 < nrep -> Z.of_nat (length a) = nrep ->
     (exists h' r', mutation ifuel N nrep tmp (h, r) = Ok (h', r')) \/
     mutation ifuel N nrep tmp (h, r) = Timeout) /\
  (nrep <= 0 ->
     mutation ifuel N nrep tmp (h, r) = Raise ValueError \/
     mutation ifuel N nrep tmp (h, r) = Timeout).
Proof.
  intros Ha HN. unfold mutation, Np.deref. rewrite Ha. simpl.
  destruct (draw_val_no_raise N a HN ifuel r) as [(v & r1 & ->)| ->];
    simpl; [|split; intros; now right].
  unfold np_randint. split.
  - intros Hn Hlen.
    replace (0 <? nrep) with true by (symmetry; now apply Z.ltb_lt).
    simpl. destruct (randint 0 nrep r1) as [pos r2] eqn:Er.
    pose proof (randint_range 0 nrep r1 Hn) as Hp.
    rewrite Er in Hp. simpl in Hp.
    unfold Np.setitem.
    replace ((0 <=? pos) && (pos <? Z.of_nat (length a))) with true
      by (symmetry; apply andb_true_iff; split;
          [apply Z.leb_le|apply Z.ltb_lt]; lia).
    simpl. left. eauto.
  - intros Hn.
    replace (0 <? nrep) with false by (symmetry; now apply Z.ltb_ge).
    simpl. now left.
Qed.

End GeneratorFacts.

Section CandidateFacts.
Context {acc : Accessor} {la : Linalg} {hs : Hessian} {rnd : Random}.
Variables (nrep nitemax num_cores : Z) (sqrtinvcov : matrix).
Variables (prior_cv prior_std : Z -> Z -> float).

Local Abbreviation body :=
  (body nrep num_cores sqrtinvcov prior_cv prior_std).
Local Abbreviation search_loop :=
  (search_loop nrep nitemax num_cores sqrtinvcov prior_cv prior_std).

(** X6.  At an iteration [>= 1] the candidate has the length of the
    accepted array and differs from it at four positions at most; the
    accepted array is as it was. *)
Theorem candidate_within_four_changes (ifuel : nat) (st st' : state)
  (a : list Z) :
  0 < nite st ->
  heap st !! index st = Some a ->
  generate nrep ifuel st = Ok st' ->
  heap st' !! index st' = Some a /\
  exists a', heap st' !! indextmp st' = Some a' /\
    length a' = length a /\ (hamming a a' <= 4)%nat.
Proof.
  intros Hn Ha E. pose proof (lookup_lt_Some _ _ _ Ha) as Hi.
  pose proof E as E'.
  apply generate_Ok in E' as (_ & _ & Ei & Et & _ & Hfr & _); [|exact Hn].
  split; [now rewrite Ei, Hfr|].
  rewrite generate_unfold in E by exact Hn.
  inv_bind E as [tmp h1] Hc. inv_bind E as [h2 r2] Hm.
  inv_bind E as c Hd. injection E as <-. simpl.
  apply copy_Ok in Hc as (a0 & Ha0 & -> & ->).
  rewrite Ha in Ha0. injection Ha0 as <-.
  unfold mutations in Hm.
  apply (mutations_hamming _ _ _ _ a _ _ _ _ _ a) in Hm
    as (a' & Ha' & Hl & Hh);
    [|now apply list_lookup_middle|reflexivity].
  exists a'. split; [exact Ha'|]. split; [exact Hl|].
  rewrite hamming_same, length_range in Hh.
  pose proof (nmut_of_bounds (fst (uniform (rng st)))). lia.
Qed.

Hypothesis randint_range : forall lo hi r,
  lo < hi -> lo <= fst (randint lo hi r) < hi.

(** X7.  When the accepted array already holds every replica id of the
    ensemble, no candidate can be drawn: at an iteration [>= 1] the
    generator, and with it the loop, gives no result however many draws and
    turns are allowed. *)
Theorem full_basis_hangs (st : state) (a : list Z) :
  0 < nite st -> nite st < nitemax ->
  heap st !! index st = Some a ->
  1 <= n_rep (pdf st) -> covers (n_rep (pdf st)) a ->
  forall ifuel fuel,
    generate nrep ifuel st = Timeout /\
    search_loop ifuel fuel st = Timeout.
Proof.
  intros Hn Hlt Ha HN Hc ifuel fuel.
  assert (Eg : generate nrep ifuel st = Timeout).
  { rewrite generate_unfold by exact Hn.
    destruct (copy_total _ _ (lookup_lt_Some _ _ _ Ha)) as (a0 & Ha0 & ->).
    rewrite Ha in Ha0. injection Ha0 as <-. simpl.
    destruct (range_cons (nmut_of (fst (uniform (rng st)))))
      as (ts & Hts); [apply nmut_of_bounds|].
    unfold mutations. rewrite Hts. simpl.
    unfold mutation, Np.deref.
    rewrite list_lookup_middle by reflexivity. simpl.
    rewrite (draw_val_exhausted randint_range _ _ HN Hc). reflexivity. }
  split; [exact Eg|].
  destruct fuel as [|k]; simpl; [reflexivity|].
  replace (nite st <? nitemax) with true by (symmetry; now apply Z.ltb_lt).
  unfold body. rewrite Eg. reflexivity.
Qed.

End CandidateFacts.

(** * Further properties of the Hessian basis and the score *)

Section RescaleFacts.
Context {la : Linalg}.

Lemma rescale_from_total (eigenvalues : vector) (vec : matrix) (k : nat) :
  (k + length vec <= length eigenvalues)%nat ->
  exists m, rescale_from eigenvalues k vec = Ok m.
Proof.
  revert k. induction vec as [|row rows IH]; intros k Hk; simpl in *.
  - eauto.
  - unfold rescale_row.
    destruct (lookup_lt_is_Some_2 eigenvalues k ltac:(lia)) as [e ->]. simpl.
    destruct (IH (S k) ltac:(lia)) as [m ->]. simpl. eauto.
Qed.

Lemma rescale_from_short (eigenvalues : vector) (vec : matrix) (k : nat) :
  (k <= length eigenvalues < k + length vec)%nat ->
  rescale_from eigenvalues k vec = Raise IndexError.
Proof.
  revert k. induction vec as [|row rows IH]; intros k Hk; simpl in *; [lia|].
  unfold rescale_row. destruct (eigenvalues !! k) as [e|] eqn:Ek; simpl.
  - apply lookup_lt_Some in Ek. rewrite IH by lia. reflexivity.
  - reflexivity.
Qed.

(** X9.  The rescaling loop succeeds exactly when there is an eigenvalue
    for every row: the result then has as many rows as the matrix, row [i]
    being row [i] divided entry by entry by [eigenvalues[i] ** 0.5], the
    power being the one of numpy (an empty matrix gives an empty matrix).
    With fewer eigenvalues than rows it raises [IndexError]. *)
Theorem rescale_rows_or_index_error (eigenvalues : vector) (vec : matrix) :
  ((length vec <= length eigenvalues)%nat ->
     exists m, rescale eigenvalues vec = Ok m /\
       length m = length vec /\
       forall i row, vec !! i = Some row ->
         exists e, eigenvalues !! i = Some e /\
           m !! i = Some (map (fun v => (v / power e 0.5)%float) row)) /\
  ((length eigenvalues < length vec)%nat ->
     rescale eigenvalues vec = Raise IndexError).
Proof.
  unfold rescale. split.
  - intros Hle.
    destruct (rescale_from_total eigenvalues vec 0 ltac:(lia)) as [m E].
    exists m. split; [exact E|]. now apply rescale_from_rows in E.
  - intros Hlt. apply rescale_from_short. lia.
Qed.

End RescaleFacts.


Section DeadGridFacts.
Context {acc : Accessor} {la : Linalg} {hs : Hessian} {rnd : Random}.
Variables (nrep nitemax num_cores : Z) (sqrtinvcov : matrix).
Variables (prior_cv prior_std : Z -> Z -> float).

Local Abbreviation evaluate :=
  (evaluate nrep num_cores sqrtinvcov prior_cv prior_std).
Local Abbreviation body :=
  (body nrep num_cores sqrtinvcov prior_cv prior_std).
Local Abbreviation search_loop :=
  (search_loop nrep nitemax num_cores sqrtinvcov prior_cv prior_std).

(** No grid point counts, whatever the view of the accessor. *)
Hypothesis no_point : forall q f x,
  mask q f x && negb (prior_std f x =? 0)%float = false.





End DeadGridFacts.


(** * Further properties of the fit *)

Lemma lookup_range (n : Z) (i : Z) :
  0 <= i < n -> range n !! Z.to_nat i = Some i.
Proof.
  intros Hi. unfold range.
  rewrite list_lookup_fmap, lookup_seq_lt by lia. simpl. f_equal. lia.
Qed.

Lemma lookup_range_inv (n : Z) (i : nat) (t : Z) :
  range n !! i = Some t -> t = Z.of_nat i /\ 0 <= t < n.
Proof.
  unfold range. rewrite list_lookup_fmap. intros E.
  destruct (seq 0 (Z.to_nat n) !! i) as [k|] eqn:Es; [|discriminate].
  simpl in E. injection E as <-. apply lookup_seq in Es as [-> Hlt].
  simpl. split; [reflexivity|lia].
Qed.

(** A loop all of whose turns succeed and carry an invariant, indexed by
    the number of turns done, to the next one. *)
Lemma for_each_total {S : Type} (I : nat -> S -> Prop) (ts : list Z)
  (f : Z -> S -> result S) (s : S) :
  I 0%nat s ->
  (forall i t x, ts !! i = Some t -> I i x ->
     exists y, f t x = Ok y /\ I (Datatypes.S i) y) ->
  exists s', for_each ts f s = Ok s' /\ I (length ts) s'.
Proof.
  revert I s. induction ts as [|t0 ts IH]; intros I s H0 Hstep; simpl.
  - eauto.
  - destruct (Hstep 0%nat t0 s eq_refl H0) as (y & E & Hy). rewrite E. simpl.
    apply (IH (fun i => I (Datatypes.S i)) y Hy).
    intros i t x Hi Hx. exact (Hstep (Datatypes.S i) t x Hi Hx).
Qed.

(** A loop whose turn number [k] raises, the turns before it succeeding. *)
Lemma for_each_raise {S : Type} (I : nat -> S -> Prop) (ts : list Z)
  (f : Z -> S -> result S) (s : S) (k : nat) (t : Z) (e : exn) :
  I 0%nat s -> ts !! k = Some t ->
  (forall i t' x, (i < k)%nat -> ts !! i = Some t' -> I i x ->
     exists y, f t' x = Ok y /\ I (Datatypes.S i) y) ->
  (forall x, I k x -> f t x = Raise e) ->
  for_each ts f s = Raise e.
Proof.
  revert I s k. induction ts as [|t0 ts IH]; intros I s k H0 Hk Hstep Hend.
  - inversion Hk.
  - destruct k as [|k]; simpl in *.
    + injection Hk as ->. rewrite (Hend s H0). reflexivity.
    + destruct (Hstep 0%nat t0 s ltac:(lia) eq_refl H0) as (y & E & Hy).
      rewrite E. simpl.
      apply (IH (fun i => I (Datatypes.S i)) y k Hy Hk).
      * intros i t' x Hi Hl Hx.
        exact (Hstep (Datatypes.S i) t' x ltac:(lia) Hl Hx).
      * exact Hend.
Qed.

Lemma index_Ok (d k : Z) : 0 <= k < d -> Np.index d k = Ok k.
Proof.
  intros Hk. unfold Np.index.
  replace ((0 <=? k) && (k <? d)) with true; [reflexivity|].
  symmetry. apply andb_true_iff. split; [apply Z.leb_le|apply Z.ltb_lt]; lia.
Qed.

Lemma index_beyond (d k : Z) :
  0 <= k -> d <= k -> Np.index d k = Raise IndexError.
Proof.
  intros Hk Hd. unfold Np.index.
  replace (k <? d) with false by (symmetry; apply Z.ltb_ge; lia).
  replace (k <? 0) with false by (symmetry; apply Z.ltb_ge; lia).
  now rewrite !andb_false_r.
Qed.

Lemma setitem_in {A : Type} (a : list A) (pos : Z) (val : A) :
  0 <= pos < Z.of_nat (length a) ->
  Np.setitem a pos val = Ok (<[Z.to_nat pos := val]> a).
Proof.
  intros Hp. unfold Np.setitem.
  replace ((0 <=? pos) && (pos <? Z.of_nat (length a))) with true;
    [reflexivity|].
  symmetry. apply andb_true_iff. split; [apply Z.leb_le|apply Z.ltb_lt]; lia.
Qed.

Lemma setitem2_in (m : matrix) (i j : Z) (val : float) (cols : nat) :
  Forall (fun row => length row = cols) m ->
  0 <= i < Z.of_nat (length m) -> 0 <= j < Z.of_nat cols ->
  exists row, m !! Z.to_nat i = Some row /\
    Np.setitem2 m i j val = Ok (<[Z.to_nat i := <[Z.to_nat j := val]> row]> m).
Proof.
  intros Hc Hi Hj.
  destruct (lookup_lt_is_Some_2 m (Z.to_nat i) ltac:(lia)) as [row Hrow].
  exists row. split; [exact Hrow|].
  unfold Np.setitem2. rewrite index_Ok by exact Hi. simpl. rewrite Hrow.
  rewrite setitem_in; [reflexivity|].
  rewrite (Forall_lookup_1 _ _ _ _ Hc Hrow). exact Hj.
Qed.

Lemma np_zeros_Ok (n : Z) :
  0 <= n -> np_zeros n = Ok (replicate (Z.to_nat n) 0%float).
Proof.
  intros Hn. unfold np_zeros, np_zeros_check. simpl.
  replace (0 <=? n) with true by (symmetry; now apply Z.leb_le).
  reflexivity.
Qed.

Lemma np_zeros2_Ok (m n : Z) :
  0 <= m -> 0 <= n ->
  np_zeros2 m n = Ok (replicate (Z.to_nat m) (replicate (Z.to_nat n) 0%float)).
Proof.
  intros Hm Hn. unfold np_zeros2, np_zeros_check. simpl.
  replace (0 <=? m) with true by (symmetry; now apply Z.leb_le).
  replace (0 <=? n) with true by (symmetry; now apply Z.leb_le).
  reflexivity.
Qed.

(** The cell of [(fi, ix)] is at a position of its own. *)
Lemma cell_position (nx fi ix fi' ix' : Z) :
  0 <= fi -> 0 <= fi' -> 0 <= ix < nx -> 0 <= ix' < nx ->
  nx * fi' + ix' = nx * fi + ix -> fi' = fi /\ ix' = ix.
Proof.
  intros Hf Hf' Hx Hx' E.
  assert (fi' = fi) by nia. subst fi'. split; [reflexivity|lia].
Qed.

Lemma cell_bound (nf nx fi ix : Z) :
  0 <= fi < nf -> 0 <= ix < nx -> 0 <= nx * fi + ix < nf * nx.
Proof. intros Hf Hx. nia. Qed.

(** ** The vector of [minintask] *)

Section FillVector.
Variables (nf nx : Z) (rd1 rd2 : Z -> Z -> result float).
Variables (v c : Z -> Z -> float).

Hypothesis nf_nonneg : 0 <= nf.
Hypothesis nx_nonneg : 0 <= nx.
Hypothesis reads : forall fi ix, 0 <= fi < nf -> 0 <= ix < nx ->
  rd1 fi ix = Ok (v fi ix) /\ rd2 fi ix = Ok (c fi ix).

Local Abbreviation g := (fun fi ix => (v fi ix - c fi ix)%float).
Local Abbreviation len := (Z.to_nat (nf * nx)).
Local Abbreviation write :=
  (fun fi ix (b : vector) =>
     x ← rd1 fi ix; y ← rd2 fi ix; Np.setitem b (nx * fi + ix) (x - y)%float).

Lemma fill_cell (fi ix : Z) (b : vector) :
  0 <= fi < nf -> 0 <= ix < nx ->
  filled_vector g len nx fi ix b ->
  exists b', write fi ix b = Ok b' /\ filled_vector g len nx fi (ix + 1) b'.
Proof.
  intros Hf Hx [Hlen Hcells].
  destruct (reads fi ix Hf Hx) as [E1 E2].
  pose proof (cell_bound nf nx fi ix Hf Hx) as Hb.
  exists (<[Z.to_nat (nx * fi + ix) := g fi ix]> b). split.
  - rewrite E1. simpl. rewrite E2. simpl. apply setitem_in. rewrite Hlen. lia.
  - split; [now rewrite length_insert|].
    intros fi' ix' Hf' Hx' Hbefore.
    destruct (Z.eq_dec (nx * fi' + ix') (nx * fi + ix)) as [E|E].
    + destruct (cell_position nx fi ix fi' ix') as [-> ->]; try lia.
      apply list_lookup_insert_eq. rewrite Hlen. lia.
    + rewrite list_lookup_insert_ne by lia.
      apply Hcells; try assumption.
      destruct Hbefore as [?|[-> Hlt]]; [now left|right].
      split; [reflexivity|]. destruct (Z.eq_dec ix' ix); [subst; lia|lia].
Qed.

Lemma fill_row_cells (fi : Z) (b : vector) :
  0 <= fi < nf ->
  filled_vector g len nx fi 0 b ->
  exists b', for_each (range nx) (write fi) b = Ok b' /\
             filled_vector g len nx (fi + 1) 0 b'.
Proof.
  intros Hf Hb.
  destruct (for_each_total
              (fun j b => filled_vector g len nx fi (Z.of_nat j) b)
              (range nx) (write fi) b Hb) as (b' & E & [Hlen Hcells]).
  - intros j t x Hj Hx. apply lookup_range_inv in Hj as [-> Ht].
    replace (Z.of_nat (S j)) with (Z.of_nat j + 1) by lia.
    now apply fill_cell.
  - exists b'. split; [exact E|]. split; [exact Hlen|].
    intros fi' ix' Hf' Hx' Hbefore. apply Hcells; try assumption.
    rewrite length_range. lia.
Qed.

Lemma fill_vector (b : vector) :
  length b = len ->
  exists b',
    for_each (range nf) (fun fi b => for_each (range nx) (write fi) b) b
      = Ok b' /\
    length b' = len /\
    forall fi ix, 0 <= fi < nf -> 0 <= ix < nx ->
      b' !! Z.to_nat (nx * fi + ix) = Some (g fi ix).
Proof.
  intros Hlen.
  destruct (for_each_total
              (fun k b => filled_vector g len nx (Z.of_nat k) 0 b)
              (range nf) (fun fi b => for_each (range nx) (write fi) b) b)
    as (b' & E & [Hlen' Hcells]).
  - split; [exact Hlen|]. intros fi' ix' Hf' Hx' Hbefore. simpl in Hbefore. lia.
  - intros k t x Hk Hx. apply lookup_range_inv in Hk as [-> Ht].
    replace (Z.of_nat (S k)) with (Z.of_nat k + 1) by lia.
    now apply fill_row_cells.
  - exists b'. split; [exact E|]. split; [exact Hlen'|].
    intros fi ix Hf Hx. apply Hcells; try lia.
    rewrite length_range. lia.
Qed.

End FillVector.

(** ** The design matrix *)

Section FillMatrix.
Variables (nf nx nrep : Z) (rd1 : Z -> Z -> Z -> result float).
Variables (rd2 : Z -> Z -> result float).
Variables (v : Z -> Z -> Z -> float) (c : Z -> Z -> float).

Hypothesis nf_nonneg : 0 <= nf.
Hypothesis nx_nonneg : 0 <= nx.
Hypothesis reads : forall fi ix r,
  0 <= fi < nf -> 0 <= ix < nx -> 0 <= r < nrep ->
  rd1 r fi ix = Ok (v r fi ix) /\ rd2 fi ix = Ok (c fi ix).

Local Abbreviation g := (fun fi ix r => (v r fi ix - c fi ix)%float).
Local Abbreviation rows := (Z.to_nat (nf * nx)).
Local Abbreviation cols := (Z.to_nat nrep).
Local Abbreviation write :=
  (fun fi ix r (A : matrix) =>
     x ← rd1 r fi ix; y ← rd2 fi ix;
     Np.setitem2 A (nx * fi + ix) r (x - y)%float).

Lemma fill_entry (fi ix r : Z) (A : matrix) :
  0 <= fi < nf -> 0 <= ix < nx -> 0 <= r < nrep ->
  filled_matrix g rows cols nx nrep fi ix r A ->
  exists A', write fi ix r A = Ok A' /\
             filled_matrix g rows cols nx nrep fi ix (r + 1) A'.
Proof.
  intros Hf Hx Hr (Hlen & Hcols & Hcells).
  destruct (reads fi ix r Hf Hx Hr) as [E1 E2].
  pose proof (cell_bound nf nx fi ix Hf Hx) as Hb.
  destruct (setitem2_in A (nx * fi + ix) r (g fi ix r) cols Hcols)
    as (row & Hrow & Es); [rewrite Hlen; lia|lia|].
  pose proof (Forall_lookup_1 _ _ _ _ Hcols Hrow) as Hrl. simpl in Hrl.
  eexists. split.
  - rewrite E1. simpl. rewrite E2. simpl. exact Es.
  - split; [now rewrite length_insert|]. split.
    + apply Forall_insert; [exact Hcols|]. now rewrite length_insert.
    + intros fi' ix' r' Hf' Hx' Hr' Hbefore.
      destruct (Z.eq_dec (nx * fi' + ix') (nx * fi + ix)) as [E|E].
      * destruct (cell_position nx fi ix fi' ix') as [-> ->]; try lia.
        eexists. split.
        { apply list_lookup_insert_eq. rewrite Hlen. lia. }
        destruct (Z.eq_dec r' r) as [->|Hne].
        { apply list_lookup_insert_eq. rewrite Hrl. lia. }
        rewrite list_lookup_insert_ne by lia.
        destruct (Hcells fi ix r' Hf' Hx' Hr') as (row' & Hrow' & Hv).
        { right. split; [reflexivity|]. right. split; [reflexivity|]. lia. }
        rewrite Hrow in Hrow'. injection Hrow' as <-. exact Hv.
      * destruct (Hcells fi' ix' r' Hf' Hx' Hr') as (row' & Hrow' & Hv).
        { destruct Hbefore as [?|[-> [?|[-> ?]]]]; [now left| |].
          - right. split; [reflexivity|]. now left.
          - congruence. }
        exists row'. split; [|exact Hv].
        rewrite list_lookup_insert_ne by lia. exact Hrow'.
Qed.

Lemma fill_row (fi ix : Z) (A : matrix) :
  0 <= fi < nf -> 0 <= ix < nx ->
  filled_matrix g rows cols nx nrep fi ix 0 A ->
  exists A', for_each (range nrep) (write fi ix) A = Ok A' /\
             filled_matrix g rows cols nx nrep fi (ix + 1) 0 A'.
Proof.
  intros Hf Hx HA.
  destruct (for_each_total
              (fun j A => filled_matrix g rows cols nx nrep fi ix (Z.of_nat j) A)
              (range nrep) (write fi ix) A HA)
    as (A' & E & (Hlen & Hcols & Hcells)).
  - intros j t x Hj Hx'. apply lookup_range_inv in Hj as [-> Ht].
    replace (Z.of_nat (S j)) with (Z.of_nat j + 1) by lia.
    now apply fill_entry.
  - exists A'. split; [exact E|]. split; [exact Hlen|]. split; [exact Hcols|].
    intros fi' ix' r' Hf' Hx' Hr' Hbefore. apply Hcells; try assumption.
    rewrite length_range. lia.
Qed.

Lemma fill_rows (fi : Z) (A : matrix) :
  0 <= fi < nf ->
  filled_matrix g rows cols nx nrep fi 0 0 A ->
  exists A',
    for_each (range nx)
      (fun ix A => for_each (range nrep) (write fi ix) A) A = Ok A' /\
    filled_matrix g rows cols nx nrep (fi + 1) 0 0 A'.
Proof.
  intros Hf HA.
  destruct (for_each_total
              (fun j A => filled_matrix g rows cols nx nrep fi (Z.of_nat j) 0 A)
              (range nx)
              (fun ix A => for_each (range nrep) (write fi ix) A) A HA)
    as (A' & E & (Hlen & Hcols & Hcells)).
  - intros j t x Hj Hx'. apply lookup_range_inv in Hj as [-> Ht].
    replace (Z.of_nat (S j)) with (Z.of_nat j + 1) by lia.
    now apply fill_row.
  - exists A'. split; [exact E|]. split; [exact Hlen|]. split; [exact Hcols|].
    intros fi' ix' r' Hf' Hx' Hr' Hbefore. apply Hcells; try assumption.
    rewrite length_range. lia.
Qed.

Lemma fill_matrix (A : matrix) :
  length A = rows -> Forall (fun row => length row = cols) A ->
  exists A',
    for_each (range nf)
      (fun fi A =>
         for_each (range nx)
           (fun ix A => for_each (range nrep) (write fi ix) A) A) A = Ok A' /\
    length A' = rows /\
    forall fi ix, 0 <= fi < nf -> 0 <= ix < nx ->
      exists row, A' !! Z.to_nat (nx * fi + ix) = Some row /\
        length row = cols /\
        forall r, 0 <= r < nrep -> row !! Z.to_nat r = Some (g fi ix r).
Proof.
  intros Hlen Hcols.
  destruct (for_each_total
              (fun k A => filled_matrix g rows cols nx nrep (Z.of_nat k) 0 0 A)
              (range nf)
              (fun fi A =>
                 for_each (range nx)
                   (fun ix A => for_each (range nrep) (write fi ix) A) A) A)
    as (A' & E & (Hlen' & Hcols' & Hcells)).
  - split; [exact Hlen|]. split; [exact Hcols|].
    intros fi' ix' r' Hf' Hx' Hr' Hbefore. simpl in Hbefore. lia.
  - intros k t x Hk Hx. apply lookup_range_inv in Hk as [-> Ht].
    replace (Z.of_nat (S k)) with (Z.of_nat k + 1) by lia.
    now apply fill_rows.
  - exists A'. split; [exact E|]. split; [exact Hlen'|].
    intros fi ix Hf Hx.
    destruct (lookup_lt_is_Some_2 A' (Z.to_nat (nx * fi + ix))) as [row Hrow].
    { rewrite Hlen'. pose proof (cell_bound nf nx fi ix Hf Hx). lia. }
    exists row. split; [exact Hrow|].
    split; [exact (Forall_lookup_1 _ _ _ _ Hcols' Hrow)|].
    intros r Hr.
    destruct (Hcells fi ix r) as (row' & Hrow' & Hv); try lia.
    { left. rewrite length_range. lia. }
    rewrite Hrow in Hrow'. injection Hrow' as <-. exact Hv.
Qed.

End FillMatrix.

Section FitFacts.
Context {acc : Accessor} {la : Linalg}.
Variables (nrep : Z) (sqrtinvcov : matrix).

Lemma xfxQ_at_Ok (p : PDF) (r fi ix : Z) :
  0 <= r < n_rep p -> 0 <= fi < fl_n -> 0 <= ix < xgrid_n ->
  xfxQ_at p r fi ix = Ok (xfxQ p r fi ix).
Proof.
  intros Hr Hf Hx. unfold xfxQ_at.
  rewrite (index_Ok _ _ Hr). simpl.
  rewrite (index_Ok _ _ Hf). simpl.
  rewrite (index_Ok _ _ Hx). reflexivity.
Qed.

Lemma xfxQ_at_beyond (p : PDF) (r fi ix : Z) :
  0 <= r -> n_rep p <= r -> xfxQ_at p r fi ix = Raise IndexError.
Proof.
  intros Hr Hn. unfold xfxQ_at. rewrite (index_beyond _ _ Hr Hn).
  reflexivity.
Qed.

Lemma f0_at_Ok (p : PDF) (fi ix : Z) :
  0 <= fi < fl_n -> 0 <= ix < xgrid_n -> f0_at p fi ix = Ok (f0 p fi ix).
Proof.
  intros Hf Hx. unfold f0_at.
  rewrite (index_Ok _ _ Hf). simpl.
  rewrite (index_Ok _ _ Hx). reflexivity.
Qed.

(** The design matrix of a grid of [fl_n] by [xgrid_n] points for a basis
    of [nrep] of the [n_rep] replicas. *)
Lemma design_Ok (p : PDF) :
  0 <= fl_n -> 0 <= xgrid_n -> 0 <= nrep <= n_rep p ->
  exists rows,
    design nrep sqrtinvcov p = dot sqrtinvcov rows /\
    length rows = Z.to_nat (fl_n * xgrid_n) /\
    forall fi ix, 0 <= fi < fl_n -> 0 <= ix < xgrid_n ->
      exists row,
        rows !! Z.to_nat (xgrid_n * fi + ix) = Some row /\
        length row = Z.to_nat nrep /\
        forall r, 0 <= r < nrep ->
          row !! Z.to_nat r = Some (xfxQ p r fi ix - f0 p fi ix)%float.
Proof.
  intros Hf Hx Hn. unfold design.
  assert (Hg : 0 <= fl_n * xgrid_n) by nia.
  rewrite (np_zeros2_Ok _ _ Hg (proj1 Hn)). simpl.
  destruct (fill_matrix fl_n xgrid_n nrep
              (fun r fi ix => xfxQ_at p r fi ix) (f0_at p) (xfxQ p) (f0 p)
              Hf Hx)
    with (A := replicate (Z.to_nat (fl_n * xgrid_n))
                 (replicate (Z.to_nat nrep) 0%float))
    as (A' & E & Hlen & Hcells).
  - intros fi ix r Hfi Hix Hr. split.
    + apply xfxQ_at_Ok; lia.
    + now apply f0_at_Ok.
  - now rewrite length_replicate.
  - apply Forall_replicate. now rewrite length_replicate.
  - exists A'. split; [|split; [exact Hlen|exact Hcells]].
    rewrite E. reflexivity.
Qed.

(** With fewer replicas in the ensemble than in the basis, the first row of
    the design matrix cannot be filled. *)
Lemma design_beyond (p : PDF) :
  0 < fl_n -> 0 < xgrid_n -> 0 < nrep -> n_rep p < nrep ->
  design nrep sqrtinvcov p = Raise IndexError.
Proof.
  intros Hf Hx Hn Hlt. unfold design.
  assert (Hg : 0 <= fl_n * xgrid_n) by nia.
  rewrite (np_zeros2_Ok _ _ Hg (Z.lt_le_incl _ _ Hn)). simpl.
  assert (Hf1 : 1 <= fl_n) by lia. assert (Hx1 : 1 <= xgrid_n) by lia.
  destruct (range_cons _ Hf1) as (fs & ->).
  destruct (range_cons _ Hx1) as (xs & ->).
  simpl.
  set (A0 := replicate (Z.to_nat (fl_n * xgrid_n))
               (replicate (Z.to_nat nrep) 0%float)).
  set (k := Z.max 0 (n_rep p)).
  rewrite (for_each_raise
             (fun _ A => length A = Z.to_nat (fl_n * xgrid_n) /\
                         Forall (fun row => length row = Z.to_nat nrep) A)
             (range nrep) _ A0 (Z.to_nat k) k IndexError).
  - reflexivity.
  - split; [apply length_replicate|].
    apply Forall_replicate. apply length_replicate.
  - apply lookup_range. lia.
  - intros i t A Hi Ht [Hlen Hcols]. apply lookup_range_inv in Ht as [-> Ht].
    rewrite xfxQ_at_Ok by lia. simpl. rewrite f0_at_Ok by lia. simpl.
    destruct (setitem2_in A (xgrid_n * 0 + 0) (Z.of_nat i)
                (xfxQ p (Z.of_nat i) 0 0 - f0 p 0 0)%float
                (Z.to_nat nrep) Hcols) as (row & Hrow & ->);
      [rewrite Hlen; nia|lia|].
    eexists. split; [reflexivity|]. split; [now rewrite length_insert|].
    apply Forall_insert; [exact Hcols|]. rewrite length_insert.
    exact (Forall_lookup_1 _ _ _ _ Hcols Hrow).
  - intros A _. rewrite xfxQ_at_beyond by lia. reflexivity.
Qed.

(** X11.  The design matrix is refused with [ValueError] when the basis
    size, or the product of the grid dimensions, is negative, and building
    it raises [IndexError] when the basis is larger than the ensemble (on a
    grid that is not empty).  For a grid of [fl_n] by [xgrid_n] points and a
    basis size [nrep] between 0 and the number of replicas, the loops fill
    every cell: the matrix handed to [sqrtinvcov.dot] has
    [fl_n * xgrid_n] rows and [nrep] columns, and its entry in row
    [xgrid_n * fi + ix] and column [r] is [xfxQ[r, fi, ix] - f0[fi, ix]]. *)
Theorem design_layout (p : PDF) :
  (fl_n * xgrid_n < 0 \/ nrep < 0 ->
     design nrep sqrtinvcov p = Raise ValueError) /\
  (0 < fl_n -> 0 < xgrid_n -> 0 < nrep -> n_rep p < nrep ->
     design nrep sqrtinvcov p = Raise IndexError) /\
  (0 <= fl_n -> 0 <= xgrid_n -> 0 <= nrep <= n_rep p ->
     exists rows,
       design nrep sqrtinvcov p = dot sqrtinvcov rows /\
       length rows = Z.to_nat (fl_n * xgrid_n) /\
       forall fi ix, 0 <= fi < fl_n -> 0 <= ix < xgrid_n ->
         exists row,
           rows !! Z.to_nat (xgrid_n * fi + ix) = Some row /\
           length row = Z.to_nat nrep /\
           forall r, 0 <= r < nrep ->
             row !! Z.to_nat r = Some (xfxQ p r fi ix - f0 p fi ix)%float).
Proof.
  split; [|split; [apply design_beyond|apply design_Ok]].
  unfold design, np_zeros2, np_zeros_check. simpl. intros Hneg.
  destruct (0 <=? fl_n * xgrid_n) eqn:Eg; [|reflexivity].
  destruct (0 <=? nrep) eqn:En; [|reflexivity].
  apply Z.leb_le in Eg, En. lia.
Qed.

(** The vector that [minintask] whitens, when its reads succeed. *)
Lemma minintask_Ok (i : Z) (A : matrix) (nf nx n : Z)
  (values : Z -> Z -> Z -> result float) (central : Z -> Z -> result float)
  (s : matrix) (v c : Z -> Z -> float) :
  0 <= nf -> 0 <= nx ->
  (forall fi ix, 0 <= fi < nf -> 0 <= ix < nx ->
     values i fi ix = Ok (v fi ix) /\ central fi ix = Ok (c fi ix)) ->
  exists b,
    minintask i A nf nx n values central s = (b' ← dotv s b; lstsq A b') /\
    length b = Z.to_nat (nf * nx) /\
    forall fi ix, 0 <= fi < nf -> 0 <= ix < nx ->
      b !! Z.to_nat (nx * fi + ix) = Some (v fi ix - c fi ix)%float.
Proof.
  intros Hf Hx Hreads. unfold minintask.
  assert (Hg : 0 <= nf * nx) by nia.
  rewrite (np_zeros_Ok _ Hg). simpl.
  destruct (fill_vector nf nx (values i) central v c Hf Hx Hreads
              (replicate (Z.to_nat (nf * nx)) 0%float))
    as (b & E & Hlen & Hcells); [apply length_replicate|].
  exists b. split; [|split; [exact Hlen|exact Hcells]].
  rewrite E. reflexivity.
Qed.

(** X12.  [minintask] refuses a negative number of grid points with
    [ValueError].  When its reads succeed, it fits, against the matrix it is
    given, the whitening of the vector of [nf * nx] entries whose entry
    [nx * fi + ix] is [xfxQ[i, fi, ix] - f0[fi, ix]].  On the arrays of the
    accessor a replica index beyond the ensemble raises [IndexError]; for a
    replica [i] of the basis, the basis being within the ensemble, the
    vector is column [i] of the matrix that the design matrix whitens. *)
Theorem minintask_target (i : Z) (A : matrix) (nf nx n : Z)
  (values : Z -> Z -> Z -> result float) (central : Z -> Z -> result float)
  (s : matrix) (p : PDF) :
  (nf * nx < 0 -> minintask i A nf nx n values central s = Raise ValueError) /\
  (forall v c : Z -> Z -> float,
     0 <= nf -> 0 <= nx ->
     (forall fi ix, 0 <= fi < nf -> 0 <= ix < nx ->
        values i fi ix = Ok (v fi ix) /\ central fi ix = Ok (c fi ix)) ->
     exists b,
       minintask i A nf nx n values central s = (b' ← dotv s b; lstsq A b') /\
       length b = Z.to_nat (nf * nx) /\
       forall fi ix, 0 <= fi < nf -> 0 <= ix < nx ->
         b !! Z.to_nat (nx * fi + ix) = Some (v fi ix - c fi ix)%float) /\
  (0 < fl_n -> 0 < xgrid_n -> 0 <= i -> n_rep p <= i ->
     minintask i A fl_n xgrid_n n (xfxQ_at p) (f0_at p) s = Raise IndexError) /\
  (0 <= fl_n -> 0 <= xgrid_n -> 0 <= i < nrep -> nrep <= n_rep p ->
     exists rows b,
       design nrep sqrtinvcov p = dot sqrtinvcov rows /\
       minintask i A fl_n xgrid_n nrep (xfxQ_at p) (f0_at p) sqrtinvcov
         = (b' ← dotv sqrtinvcov b; lstsq A b') /\
       length b = length rows /\
       forall fi ix, 0 <= fi < fl_n -> 0 <= ix < xgrid_n ->
         exists row,
           rows !! Z.to_nat (xgrid_n * fi + ix) = Some row /\
           row !! Z.to_nat i = b !! Z.to_nat (xgrid_n * fi + ix)).
Proof.
  split; [|split; [|split]].
  - intros Hneg. unfold minintask, np_zeros, np_zeros_check. simpl.
    replace (0 <=? nf * nx) with false by (symmetry; apply Z.leb_gt; lia).
    reflexivity.
  - intros v c. apply minintask_Ok.
  - intros Hf Hx Hi Hn. unfold minintask.
    assert (Hg : 0 <= fl_n * xgrid_n) by nia.
    rewrite (np_zeros_Ok _ Hg). simpl.
    assert (Hf1 : 1 <= fl_n) by lia. assert (Hx1 : 1 <= xgrid_n) by lia.
    destruct (range_cons _ Hf1) as (fs & ->).
    destruct (range_cons _ Hx1) as (xs & ->).
    simpl. rewrite xfxQ_at_beyond by assumption. reflexivity.
  - intros Hf Hx Hi Hn.
    destruct (design_Ok p Hf Hx ltac:(lia)) as (rows & Ed & Hlen & Hrows).
    destruct (minintask_Ok i A fl_n xgrid_n nrep (xfxQ_at p) (f0_at p)
                sqrtinvcov (xfxQ p i) (f0 p) Hf Hx)
      as (b & Eb & Hlb & Hb).
    { intros fi ix Hfi Hix. split; [apply xfxQ_at_Ok; lia|now apply f0_at_Ok]. }
    exists rows, b. split; [exact Ed|]. split; [exact Eb|].
    split; [now rewrite Hlen|].
    intros fi ix Hfi Hix.
    destruct (Hrows fi ix Hfi Hix) as (row & Hrow & _ & Hcol).
    exists row. split; [exact Hrow|].
    rewrite (Hcol i Hi), (Hb fi ix Hfi Hix). reflexivity.
Qed.

End FitFacts.

(** * The further properties on the small instance *)


Lemma arrays_never_rewritten_witness :
  wf swap_start /\
  Forall (fun s => forall l, (l < length (heap swap_start))%nat ->
                     heap s !! l = heap swap_start !! l)
    (swap_trace 2 5%nat 5%nat swap_start).
Proof.
  assert (Hw : wf swap_start) by (split; simpl; lia).
  split; [exact Hw|].
  exact (proj1 (arrays_never_rewritten
                  (acc := Tiny.accessor Tiny.good) (la := Tiny.linalg)
                  (hs := Tiny.hessian) (rnd := Tiny.random one_swap)
                  2 2 4 eye2 (tiny_cv Tiny.good) (tiny_std Tiny.good)
                  5%nat 5%nat Tiny.good [])
               swap_start Hw).
Defined.

Lemma main_without_budget_witness :
  0 <= 0 /\
  tiny_main Tiny.good 0 5%nat 5%nat
  = Ok (Report 0 1e8%float "tiny" 2 1%float 0%float [1; 2]).
Proof.
  assert (Hm : 0 <= 0) by lia.
  split; [exact Hm|].
  exact (main_without_budget
           (acc := Tiny.accessor Tiny.good) (la := Tiny.linalg)
           (hs := Tiny.hessian) (rnd := Tiny.random no_script)
           "tiny" 2 1%float 0%float 0 4 [] 5%nat 4%nat Hm).
Defined.

Lemma final_erf_bounded_witness :
  swap_main 2 5%nat 5%nat = Ok swap_report /\
  (Final_ERF swap_report <=? 1e8)%float = true /\
  (Final_ERF swap_report <=? 1)%float = true.
Proof.
  assert (E : swap_main 2 5%nat 5%nat = Ok swap_report)
    by (vm_compute; reflexivity).
  destruct (final_erf_bounded
              (acc := Tiny.accessor Tiny.good) (la := Tiny.linalg)
              (hs := Tiny.hessian) (rnd := Tiny.random one_swap)
              "tiny" 2 1%float 0%float 2 4 [] 5%nat 5%nat swap_report E)
    as [H1 H2].
  split; [exact E|]. split; [exact H1|].
  apply H2; [lia|vm_compute; reflexivity|vm_compute; reflexivity].
Defined.

Lemma reported_basis_distinct_sorted_witness :
  distinct_in_range 2 9 [1; 2] /\
  swap_main 2 5%nat 5%nat = Ok swap_report /\
  Sorted Z.le (basis swap_report) /\
  distinct_in_range 2 9 (basis swap_report).
Proof.
  assert (Hd : distinct_in_range 2 9 [1; 2]).
  { split; [reflexivity|]. split.
    - apply (bool_decide_unpack _). vm_compute. exact I.
    - repeat (apply Forall_cons; split; [lia|]). apply Forall_nil_2. }
  assert (E : swap_main 2 5%nat 5%nat = Ok swap_report)
    by (vm_compute; reflexivity).
  split; [exact Hd|]. split; [exact E|].
  exact (reported_basis_distinct_sorted
           (acc := Tiny.accessor Tiny.good) (la := Tiny.linalg)
           (hs := Tiny.hessian) (rnd := Tiny.random one_swap)
           (tiny_randint_range one_swap) (fun _ _ => eq_refl)
           "tiny" 2 1%float 0%float 2 4 [] 5%nat 5%nat 2%nat swap_report
           Hd E).
Defined.

Lemma candidate_within_four_changes_witness :
  0 < nite (mid Tiny.good) /\
  heap (mid Tiny.good) !! index (mid Tiny.good) = Some [1; 2] /\
  generate 2 5%nat (mid Tiny.good) = Ok (mid_next Tiny.good) /\
  heap (mid_next Tiny.good) !! index (mid_next Tiny.good) = Some [1; 2] /\
  exists a',
    heap (mid_next Tiny.good) !! indextmp (mid_next Tiny.good) = Some a' /\
    length a' = length [1; 2] /\ (hamming [1%Z; 2%Z] a' <= 4)%nat.
Proof.
  assert (Hn : 0 < nite (mid Tiny.good)) by (simpl; lia).
  assert (Ha : heap (mid Tiny.good) !! index (mid Tiny.good) = Some [1; 2])
    by reflexivity.
  assert (Eg : generate 2 5%nat (mid Tiny.good) = Ok (mid_next Tiny.good))
    by (vm_compute; reflexivity).
  split; [exact Hn|]. split; [exact Ha|]. split; [exact Eg|].
  exact (candidate_within_four_changes 2 5%nat (mid Tiny.good)
           (mid_next Tiny.good) [1; 2] Hn Ha Eg).
Defined.

Lemma full_basis_hangs_witness :
  0 < nite full_state /\ nite full_state < 3 /\
  heap full_state !! index full_state = Some [1; 2] /\
  1 <= n_rep (pdf full_state) /\
  covers (n_rep (pdf full_state)) [1; 2] /\
  generate 2 5%nat full_state = Timeout /\
  tiny_loop Tiny.pair 3 5%nat 7%nat full_state = Timeout.
Proof.
  assert (Hn : 0 < nite full_state) by (simpl; lia).
  assert (Hlt : nite full_state < 3) by (simpl; lia).
  assert (Ha : heap full_state !! index full_state = Some [1; 2])
    by reflexivity.
  assert (HN : 1 <= n_rep (pdf full_state)) by (simpl; lia).
  assert (Hc : covers (n_rep (pdf full_state)) [1; 2]).
  { intros v Hv. simpl in Hv.
    destruct (Z.eq_dec v 1) as [->|Hne]; [now left|].
    replace v with 2 by lia. right. now left. }
  split; [exact Hn|]. split; [exact Hlt|]. split; [exact Ha|].
  split; [exact HN|]. split; [exact Hc|].
  exact (full_basis_hangs
           (acc := Tiny.accessor Tiny.pair) (la := Tiny.linalg)
           (hs := Tiny.hessian) (rnd := Tiny.random no_script)
           2 3 4 eye2 (tiny_cv Tiny.pair) (tiny_std Tiny.pair)
           (tiny_randint_range no_script) full_state [1; 2]
           Hn Hlt Ha HN Hc 5%nat 7%nat).
Defined.

Lemma mutation_position_in_bounds_witness :
  ([[1; 2; 3]] : store) !! 0%nat = Some [1; 2; 3] /\ 1 <= 10 /\
  ((exists h' r', mutation (rnd := Tiny.random no_script) 5%nat 10 3 0%nat
                    ([[1; 2; 3]], [4; 2]) = Ok (h', r')) \/
   mutation (rnd := Tiny.random no_script) 5%nat 10 3 0%nat
     ([[1; 2; 3]], [4; 2]) = Timeout) /\
  (mutation (rnd := Tiny.random no_script) 5%nat 10 0 0%nat
     ([[1; 2; 3]], [4; 2]) = Raise ValueError \/
   mutation (rnd := Tiny.random no_script) 5%nat 10 0 0%nat
     ([[1; 2; 3]], [4; 2]) = Timeout).
Proof.
  assert (Ha : ([[1; 2; 3]] : store) !! 0%nat = Some [1; 2; 3]) by reflexivity.
  assert (HN : 1 <= 10) by lia.
  split; [exact Ha|]. split; [exact HN|]. split.
  - apply (proj1 (mutation_position_in_bounds (rnd := Tiny.random no_script)
                    (tiny_randint_range no_script)
                    5%nat 10 3 0%nat [[1; 2; 3]] [4; 2] [1; 2; 3] Ha HN));
      [lia|reflexivity].
  - apply (proj2 (mutation_position_in_bounds (rnd := Tiny.random no_script)
                    (tiny_randint_range no_script)
                    5%nat 10 0 0%nat [[1; 2; 3]] [4; 2] [1; 2; 3] Ha HN)).
    lia.
Defined.

Lemma rescale_divides_rows_not_columns_witness :
  eigh (Linalg := Tiny.linalg) [[2.5; 1.5]; [1.5; 2.5]]%float
    = Ok (eigenvalues_2, vec_2) /\
  power (Linalg := Tiny.linalg) 1 0.5 = 1%float /\
  power (Linalg := Tiny.linalg) 4 0.5 = 2%float /\
  rescale (la := Tiny.linalg) eigenvalues_2 vec_2
    <> Ok (rescale_columns (la := Tiny.linalg) eigenvalues_2 vec_2).
Proof.
  assert (H1 : power (Linalg := Tiny.linalg) 1 0.5 = 1%float)
    by (vm_compute; reflexivity).
  assert (H4 : power (Linalg := Tiny.linalg) 4 0.5 = 2%float)
    by (vm_compute; reflexivity).
  split; [vm_compute; reflexivity|]. split; [exact H1|]. split; [exact H4|].
  exact (proj2 (proj2 (rescale_divides_rows_not_columns
                         (la := Tiny.linalg) H1 H4))).
Defined.

Lemma rescale_rows_or_index_error_witness :
  (exists m, rescale (la := Tiny.linalg) eigenvalues_2 vec_2 = Ok m /\
             length m = 2%nat) /\
  rescale (la := Tiny.linalg) [1%float] vec_2 = Raise IndexError.
Proof.
  split.
  - destruct (proj1 (rescale_rows_or_index_error (la := Tiny.linalg)
                       eigenvalues_2 vec_2))
      as (m & E & Hl & _); [simpl; lia|].
    exists m. split; [exact E|exact Hl].
  - apply (proj2 (rescale_rows_or_index_error (la := Tiny.linalg)
                    [1%float] vec_2)).
    simpl. lia.
Defined.


Lemma design_layout_witness :
  design (acc := Tiny.accessor Tiny.good) (la := Tiny.linalg)
    (-1) eye2 Tiny.good = Raise ValueError /\
  design (acc := Tiny.accessor Tiny.good) (la := Tiny.linalg)
    10 eye2 Tiny.good = Raise IndexError /\
  exists rows,
    design (acc := Tiny.accessor Tiny.good) (la := Tiny.linalg)
      2 eye2 Tiny.good = Tiny.mdot eye2 rows /\
    length rows = 2%nat /\
    exists row, rows !! 1%nat = Some row /\ row !! 1%nat = Some 1%float.
Proof.
  destruct (design_layout (acc := Tiny.accessor Tiny.good)
              (la := Tiny.linalg) (-1) eye2 Tiny.good) as (Herr & _ & _).
  destruct (design_layout (acc := Tiny.accessor Tiny.good)
              (la := Tiny.linalg) 10 eye2 Tiny.good) as (_ & Hbeyond & _).
  destruct (design_layout (acc := Tiny.accessor Tiny.good)
              (la := Tiny.linalg) 2 eye2 Tiny.good) as (_ & _ & Hok).
  split; [apply Herr; right; lia|].
  split; [apply Hbeyond; simpl; lia|].
  destruct Hok as (rows & E & Hl & Hcells); [simpl; lia|simpl; lia|simpl; lia|].
  exists rows. split; [exact E|]. split; [exact Hl|].
  destruct (Hcells 0 1) as (row & Hrow & _ & Hcol); [simpl; lia|simpl; lia|].
  exists row. split; [exact Hrow|]. exact (Hcol 1 ltac:(lia)).
Defined.

Lemma minintask_target_witness :
  minintask (la := Tiny.linalg) 9 eye2 1 2 2
    (xfxQ_at (acc := Tiny.accessor Tiny.good) Tiny.good)
    (f0_at (acc := Tiny.accessor Tiny.good) Tiny.good) eye2
    = Raise IndexError /\
  exists rows b,
    design (acc := Tiny.accessor Tiny.good) (la := Tiny.linalg)
      2 eye2 Tiny.good = Tiny.mdot eye2 rows /\
    length b = length rows /\
    exists row, rows !! 0%nat = Some row /\ row !! 1%nat = b !! 0%nat.
Proof.
  destruct (minintask_target (acc := Tiny.accessor Tiny.good)
              (la := Tiny.linalg) 2 eye2 9 eye2 1 2 2
              (xfxQ_at (acc := Tiny.accessor Tiny.good) Tiny.good)
              (f0_at (acc := Tiny.accessor Tiny.good) Tiny.good)
              eye2 Tiny.good)
    as (_ & _ & Hbeyond & _).
  destruct (minintask_target (acc := Tiny.accessor Tiny.good)
              (la := Tiny.linalg) 2 eye2 1 eye2 1 2 2
              (xfxQ_at (acc := Tiny.accessor Tiny.good) Tiny.good)
              (f0_at (acc := Tiny.accessor Tiny.good) Tiny.good)
              eye2 Tiny.good)
    as (_ & _ & _ & Hcol).
  split; [apply Hbeyond; simpl; lia|].
  destruct Hcol as (rows & b & Ed & _ & Hl & Hcells);
    [simpl; lia|simpl; lia|lia|simpl; lia|].
  exists rows, b. split; [exact Ed|]. split; [exact Hl|].
  apply (Hcells 0 0); simpl; lia.
Defined.

(** * Scores that are not numbers *)

Lemma is_nan_spec (x : float) :
  is_nan x = true <-> Prim2SF x = S754_nan.
Proof.
  unfold is_nan. rewrite FloatAxioms.eqb_spec, negb_true_iff. unfold SFeqb.
  destruct (Prim2SF x) as [[]|[]| |[] m e];
    FloatOrder.sf_crush; split; intros; try discriminate; try reflexivity.
Qed.

Lemma is_nan_add_l (x y : float) : is_nan x = true -> is_nan (x + y) = true.
Proof. rewrite !is_nan_spec, add_spec. now intros ->. Qed.

Lemma is_nan_add_r (x y : float) : is_nan y = true -> is_nan (x + y) = true.
Proof.
  rewrite !is_nan_spec, add_spec. intros ->. now destruct (Prim2SF x).
Qed.

Lemma is_nan_sub_l (x y : float) : is_nan x = true -> is_nan (x - y) = true.
Proof. rewrite !is_nan_spec, sub_spec. now intros ->. Qed.

Lemma is_nan_sub_r (x y : float) : is_nan y = true -> is_nan (x - y) = true.
Proof.
  rewrite !is_nan_spec, sub_spec. intros ->. now destruct (Prim2SF x).
Qed.

Lemma is_nan_div_l (x y : float) : is_nan x = true -> is_nan (x / y) = true.
Proof. rewrite !is_nan_spec, div_spec. now intros ->. Qed.

Lemma is_nan_div_r (x y : float) : is_nan y = true -> is_nan (x / y) = true.
Proof.
  rewrite !is_nan_spec, div_spec. intros ->. now destruct (Prim2SF x).
Qed.

Lemma is_nan_abs (x : float) : is_nan x = true -> is_nan (abs x) = true.
Proof. rewrite !is_nan_spec, abs_spec. now intros ->. Qed.

(** A float that is not a number is below nothing and equal to nothing. *)
Lemma is_nan_ltb (x y : float) : is_nan x = true -> (x <? y)%float = false.
Proof. rewrite is_nan_spec, ltb_spec. now intros ->. Qed.

Lemma is_nan_eqb (x y : float) : is_nan x = true -> (x =? y)%float = false.
Proof. rewrite is_nan_spec, FloatAxioms.eqb_spec. now intros ->. Qed.

Lemma fold_add_nan {B : Type} (d : B -> float) (l : list B) (est : float) :
  is_nan est = true ->
  is_nan (fold_left (fun est fx => (est + d fx)%float) l est) = true.
Proof.
  revert est. induction l as [|fx l IH]; intros est Hn; simpl; [exact Hn|].
  apply IH. now apply is_nan_add_l.
Qed.

Lemma fold_add_nan_term {B : Type} (d : B -> float) (l : list B) (est : float)
  (fx : B) :
  In fx l -> is_nan (d fx) = true ->
  is_nan (fold_left (fun est fx => (est + d fx)%float) l est) = true.
Proof.
  revert est. induction l as [|y l IH]; intros est Hin Hn; simpl; [easy|].
  destruct Hin as [->|Hin].
  - apply fold_add_nan. now apply is_nan_add_r.
  - now apply IH.
Qed.

Section NanFacts.
Context {acc : Accessor} {hs : Hessian} {rnd : Random}.
Variables (nrep : Z) (prior_cv prior_std : Z -> Z -> float).

(** X13.  If at some grid point that the mask marks valid the prior
    standard deviation is not a number, or it is nonzero and the Hessian
    projection there is not a number, then the score of the candidate is not
    a number. *)
Theorem nan_point_poisons_score (vec : matrix) (p : PDF) (f x : Z) :
  0 <= f < fl_n -> 0 <= x < xgrid_n ->
  mask p f x = true ->
  is_nan (prior_std f x) = true \/
  ((prior_std f x =? 0)%float = false /\
   is_nan (comp_hess nrep vec (xfxQ p) f x (prior_cv f x)) = true) ->
  is_nan (erf nrep prior_cv prior_std vec p) = true.
Proof.
  intros Hf Hx Hm Hnan. rewrite erf_sum.
  apply (fold_add_nan_term _ _ _ (f, x)).
  - apply filter_In. split.
    + unfold grid. apply in_flat_map. exists f. split.
      * unfold range. apply in_map_iff. exists (Z.to_nat f).
        split; [lia|]. apply in_seq. lia.
      * apply in_map_iff. exists x. split; [reflexivity|].
        unfold range. apply in_map_iff. exists (Z.to_nat x).
        split; [lia|]. apply in_seq. lia.
    + unfold counted. simpl. rewrite Hm. simpl.
      destruct Hnan as [Hn|[-> _]]; [|reflexivity].
      now rewrite is_nan_eqb.
  - unfold deviation. simpl. apply is_nan_abs.
    destruct Hnan as [Hn|[_ Hn]].
    + now apply is_nan_div_r.
    + now apply is_nan_div_l, is_nan_sub_l.
Qed.

End NanFacts.

Lemma leb_refl_number (x : float) :
  (x <=? x)%float = true -> is_nan x = false.
Proof.
  intros Hr. destruct (is_nan x) eqn:E; [|reflexivity].
  apply is_nan_spec in E. rewrite leb_spec, E in Hr. discriminate.
Qed.

Section NanLoopFacts.
Context {acc : Accessor} {la : Linalg} {hs : Hessian} {rnd : Random}.
Variables (nrep nitemax num_cores : Z) (sqrtinvcov : matrix).
Variables (prior_cv prior_std : Z -> Z -> float).

Local Abbreviation body :=
  (body nrep num_cores sqrtinvcov prior_cv prior_std).
Local Abbreviation trace :=
  (trace nrep nitemax num_cores sqrtinvcov prior_cv prior_std).

Lemma trace_numbers (ifuel fuel : nat) (st : state) :
  not_worse st st -> Forall (fun s => not_worse s s) (trace ifuel fuel st).
Proof.
  revert st. induction fuel as [|k IH]; intros st Hr; simpl.
  - constructor; [exact Hr|constructor].
  - destruct (nite st <? nitemax); [|constructor; [exact Hr|constructor]].
    destruct (body ifuel st) as [s1| |] eqn:Eb;
      try (constructor; [exact Hr|constructor]).
    constructor; [exact Hr|]. apply IH.
    eapply body_not_worse; eassumption.
Qed.

(** X14.  A score that is not a number is never accepted: the turn is
    counted, and the best score, the accepted variable and the store are as
    before.  Hence the best score is a number in every state of a run of
    [main]. *)
Theorem nan_score_never_accepted :
  (forall est st, is_nan est = true ->
     accept est st =
       Ok (State (nite st + 1) (berf st) (index st) (indextmp st) (heap st)
             (pdf st) (rng st))) /\
  (forall ifuel fuel p ambient,
     Forall (fun s => is_nan (berf s) = false)
       (trace ifuel fuel (initial_state p ambient))).
Proof.
  split.
  - intros est st Hn. unfold accept. rewrite (is_nan_ltb est (berf st) Hn).
    reflexivity.
  - intros ifuel fuel p ambient.
    eapply Forall_impl; [apply trace_numbers; reflexivity|].
    intros s Hs. now apply leb_refl_number.
Qed.

End NanLoopFacts.

Lemma nan_point_poisons_score_witness :
  is_nan (0 / 0)%float = true /\
  is_nan (erf (acc := Tiny.accessor Tiny.good) (hs := Tiny.hessian) 2
            (tiny_cv Tiny.good) (fun _ _ => (0 / 0)%float)
            eye2 Tiny.good) = true.
Proof.
  assert (Hn : is_nan (0 / 0)%float = true) by (vm_compute; reflexivity).
  split; [exact Hn|].
  apply (nan_point_poisons_score (acc := Tiny.accessor Tiny.good)
           (hs := Tiny.hessian) 2 (tiny_cv Tiny.good)
           (fun _ _ => (0 / 0)%float) eye2 Tiny.good 0 1).
  - simpl. lia.
  - simpl. lia.
  - reflexivity.
  - left. exact Hn.
Defined.

Lemma nan_score_never_accepted_witness :
  is_nan (0 / 0)%float = true /\
  accept (0 / 0)%float (tiny_start Tiny.good)
  = Ok (tiny_state Tiny.good 1 1e8%float 0%nat 1%nat [[1; 2]; [1; 2]]
          Tiny.good []).
Proof.
  assert (Hn : is_nan (0 / 0)%float = true) by (vm_compute; reflexivity).
  split; [exact Hn|].
  exact (proj1 (nan_score_never_accepted
                  (acc := Tiny.accessor Tiny.good) (la := Tiny.linalg)
                  (hs := Tiny.hessian) (rnd := Tiny.random no_script)
                  2 1 4 eye2 (tiny_cv Tiny.good) (tiny_std Tiny.good))
               (0 / 0)%float (tiny_start Tiny.good) Hn).
Defined.
